(** * PyOne: the macro expansion pass [make_script] of pyone.py

    A shallow embedding of the one-liner expander of [pyone.py] and the
    properties of its specification.

    Python values are modelled as follows.
    - The script is Python 3: a [str] is a sequence of Unicode code
      points, here a list of binary natural numbers ([pystr]), and
      [strip] removes the white space of [str.isspace].
    - Indices, the scan positions [b], [i], [e] and the indentation
      counter are Python [int]s, modelled in [Z], so that [e-3] and
      [indent - 1] may become negative as they do in the source.
    - Slices and subscripts follow Python: negative indices count from the
      end, slices clamp, subscripts out of range raise [IndexError].
    - Exceptions are values of [exn]; a computation that may raise returns
      a [res].  The builtin [int] is a parameter of [toint].
    - The pattern [PAT] is a term of [regex], matched by a backtracking
      matcher that explores the alternatives in the order of Python's
      [re] engine.
    - The [while] loop of [make_script] is a step function [body] iterated
      by [loop] under a fuel bound; [make_script] supplies more fuel than
      the loop can use, which is proved below. *)

From Stdlib Require Import List NArith ZArith Bool Ascii String Lia.
Import ListNotations.

#[local] Open Scope Z_scope.

(** ** Strings *)

Definition char := N.
Definition pystr := list char.

(** [str] reads a literal of the development as a Python string. *)
Definition str (x : string) : pystr :=
  List.map N_of_ascii (list_ascii_of_string x).

Definition DQUOTE : char := 34%N.     (* \042 *)
Definition SQUOTE : char := 39%N.     (* \047 *)
Definition LBRACE : char := 123%N.
Definition RBRACE : char := 125%N.
Definition SEMI : char := 59%N.
Definition COLON : char := 58%N.
Definition BACKSLASH : char := 92%N.
Definition NEWLINE : char := 10%N.

Fixpoint pystr_eqb (x y : pystr) : bool :=
  match x, y with
  | [], [] => true
  | c :: x', d :: y' => N.eqb c d && pystr_eqb x' y'
  | _, _ => false
  end.

Definition len (s : pystr) : Z := Z.of_nat (List.length s).

(** A slice bound [k] of [s[lo:hi]]: a negative bound counts from the end,
    and the result is clamped to [0 .. len s]. *)
Definition bound (s : pystr) (k : Z) : Z :=
  if k <? 0 then Z.max 0 (k + len s) else Z.min k (len s).

(** [s[lo:hi]] *)
Definition slice (s : pystr) (lo hi : Z) : pystr :=
  firstn (Z.to_nat (bound s hi - bound s lo)) (skipn (Z.to_nat (bound s lo)) s).

(** [s[lo:]] *)
Definition slice_from (s : pystr) (lo : Z) : pystr :=
  skipn (Z.to_nat (bound s lo)) s.

(** ** Exceptions *)

Inductive exn : Type :=
| ValueError
| IndexError
| SyntaxError (msg : pystr)
| OtherError.

Inductive res (A : Type) : Type :=
| Ok (a : A)
| Raise (e : exn).
Arguments Ok {A} a.
Arguments Raise {A} e.

(** [s[k]] *)
Definition index (s : pystr) (k : Z) : res char :=
  let k' := if k <? 0 then k + len s else k in
  if (0 <=? k') && (k' <? len s)
  then match nth_error s (Z.to_nat k') with
       | Some c => Ok c
       | None => Raise IndexError
       end
  else Raise IndexError.

(** [str.isspace] on one code point: the white space that [str.strip()]
    removes. *)
Definition isspace (c : char) : bool :=
  ((9 <=? c) && (c <=? 13) || (28 <=? c) && (c <=? 32)
   || (c =? 133) || (c =? 160) || (c =? 5760)
   || (8192 <=? c) && (c <=? 8202)
   || (c =? 8232) || (c =? 8233) || (c =? 8239) || (c =? 8287)
   || (c =? 12288))%N.

Fixpoint lstrip (x : pystr) : pystr :=
  match x with
  | c :: x' => if isspace c then lstrip x' else x
  | [] => []
  end.

Definition rstrip (x : pystr) : pystr := rev (lstrip (rev x)).

(** [line.strip()] *)
Definition strip (x : pystr) : pystr := rstrip (lstrip x).

(** [u * n] for a string [u] and an integer [n]; empty when [n <= 0]. *)
Definition str_mul (u : pystr) (n : Z) : pystr :=
  List.concat (List.repeat u (Z.to_nat n)).

(** ** User objects: [toint] *)

Section Toint.

(** The builtin [int] applied to a [str]. *)
Variable int : pystr -> res Z.

(** [toint(x, v=0)]: [int(x)], and [v] when that raises [ValueError];
    any other exception passes through. *)
Definition toint (x : pystr) (v : Z) : res Z :=
  match int x with
  | Ok n => Ok n
  | Raise ValueError => Ok v
  | Raise e => Raise e
  end.

End Toint.

(** ** Regular expressions and the backtracking matcher

    The fragment of Python's [re] syntax that [PAT] uses: character
    classes, concatenation, ordered alternation and the greedy star. *)

Inductive regex : Type :=
| Class (p : char -> bool)
| Seq (r1 r2 : regex)
| Or (r1 r2 : regex)
| Star (r : regex).

Section Backtrack.

Context {A : Type}.

(** A continuation receives the text that is left and says whether the
    rest of the pattern matches there. *)
Definition cont : Type := pystr -> option A.

(** The greedy star: one more iteration of the body is tried first, and
    the continuation only when that fails.  An iteration must consume
    text, so at most [List.length t] of them follow each other. *)
Fixpoint iterate (body : pystr -> cont -> option A) (n : nat)
         (t : pystr) (k : cont) : option A :=
  match n with
  | O => k t
  | S n' =>
      match body t (fun t' =>
               if (List.length t' <? List.length t)%nat
               then iterate body n' t' k else None) with
      | Some x => Some x
      | None => k t
      end
  end.

(** The first way to match [r] at the head of [t] that the continuation
    accepts, in the order in which the engine explores them. *)
Fixpoint exec (r : regex) (t : pystr) (k : cont) : option A :=
  match r with
  | Class p =>
      match t with
      | c :: t' => if p c then k t' else None
      | [] => None
      end
  | Seq r1 r2 => exec r1 t (fun t' => exec r2 t' k)
  | Or r1 r2 =>
      match exec r1 t k with
      | Some x => Some x
      | None => exec r2 t k
      end
  | Star r1 => iterate (exec r1) (List.length t) t k
  end.

End Backtrack.

(** ** The scanner [PAT]

    Writing D for the double quote (octal 042 in the source) and Q for the
    single quote (octal 047), [PAT] is the regular expression

      [^DQ{};]*  ( [{};]  |  D(\\.|[^D])*D  |  Q(\\.|[^Q])*Q )
*)

Definition is_delim (c : char) : bool :=
  ((c =? LBRACE) || (c =? RBRACE) || (c =? SEMI))%N.

(** The leading class: any character but a quote or a delimiter. *)
Definition is_plain (c : char) : bool :=
  negb ((c =? DQUOTE) || (c =? SQUOTE) || is_delim c)%N.

(** The dot, without the DOTALL flag. *)
Definition dot (c : char) : bool := negb (c =? NEWLINE)%N.

(** [(\\.|[^q])*q], what follows an opening quote [q]. *)
Definition QUOTED_TAIL (q : char) : regex :=
  Seq (Star (Or (Seq (Class (N.eqb BACKSLASH)) (Class dot))
                (Class (fun c => negb (c =? q)%N))))
      (Class (N.eqb q)).

Definition QUOTED (q : char) : regex := Seq (Class (N.eqb q)) (QUOTED_TAIL q).

Definition PAT : regex :=
  Seq (Star (Class is_plain))
      (Or (Class is_delim) (Or (QUOTED DQUOTE) (QUOTED SQUOTE))).

(** [PAT.match(s, i)], as the end position [m.end(0)] of the match. *)
Definition PAT_match (s : pystr) (i : Z) : option Z :=
  option_map (fun rest => len s - len rest) (exec PAT (slice_from s i) Some).

(** *** The scanner as a recursive function

    [PAT_match] is computed below by two structurally recursive functions
    that the proofs work with; [PAT_match_len] relates them to the
    matcher. *)

(** [QUOTED_TAIL q] on the text after an opening quote: the number of
    characters up to and including the closing quote.  The escape pair is
    tried first; when the rest of the text cannot be matched after it, the
    backslash is taken alone. *)
Fixpoint quoted (q : char) (t : pystr) : option nat :=
  match t with
  | [] => None
  | c :: t' =>
      let single :=
        if (c =? q)%N then Some 1%nat else option_map S (quoted q t') in
      if (BACKSLASH =? c)%N then
        match t' with
        | d :: t'' =>
            if dot d then
              match quoted q t'' with
              | Some n => Some (S (S n))
              | None => single
              end
            else single
        | [] => single
        end
      else single
  end.

(** The length of the match of [PAT] at the head of [t]. *)
Fixpoint PAT_len (t : pystr) : option nat :=
  match t with
  | [] => None
  | c :: t' =>
      if is_plain c then option_map S (PAT_len t')
      else if is_delim c then Some 1%nat
      else option_map S (quoted c t')
  end.

(** ** [make_script] *)

Definition INDENT_UNIT : pystr := str "    ".
Definition LOOP_TRIGGER : pystr := str "EL{".
Definition LOOP_HEADER : pystr := str "for (L,S) in enumerate(fileinput.input()):".
Definition LOOP_STRIP : pystr := str "s = S.strip()".
Definition LOOP_SPLIT : pystr := str "F = s.split(DELIM)".
Definition LOOP_INTS : pystr := str "I = [ toint(v) for v in F ]".
Definition ERROR_PREFIX : pystr := str "Invalid Syntax: ".

(** The local variables of [make_script]. *)
Record state : Type := mkState {
  b : Z;
  i : Z;
  indent : Z;
  lines : list pystr
}.

(** The nested function [add]: it reads [indent] and appends to [lines]. *)
Definition add (indent : Z) (lines : list pystr) (line : pystr) : list pystr :=
  let line := strip line in
  match line with
  | [] => lines
  | _ :: _ => lines ++ [str_mul INDENT_UNIT indent ++ line]
  end.

(** What one iteration of the [while] loop does. *)
Inductive step : Type :=
| Continue (st : state)
| Break (st : state)
| Abort (e : exn).

Definition body (s : pystr) (st : state) : step :=
  match PAT_match s (i st) with
  | None =>
      Break (mkState (b st) (i st) (indent st)
               (add (indent st) (lines st) (slice_from s (b st))))
  | Some e =>
      if pystr_eqb (slice s (e - 3) e) LOOP_TRIGGER then
        let l := add (indent st) (lines st) (slice s (b st) (e - 3)) in
        let l := add (indent st) l LOOP_HEADER in
        let indent := indent st + 1 in
        let l := add indent l LOOP_STRIP in
        let l := add indent l LOOP_SPLIT in
        let l := add indent l LOOP_INTS in
        Continue (mkState e e indent l)
      else
        match index s (e - 1) with
        | Raise x => Abort x
        | Ok c =>
            if (c =? LBRACE)%N then
              let l := add (indent st) (lines st) (slice s (b st) (e - 1) ++ [COLON]) in
              Continue (mkState e e (indent st + 1) l)
            else if (c =? RBRACE)%N then
              let l := add (indent st) (lines st) (slice s (b st) (e - 1)) in
              let indent := indent st - 1 in
              if indent <? 0
              then Abort (SyntaxError (ERROR_PREFIX ++ slice_from s (b st)))
              else Continue (mkState e e indent l)
            else if (c =? SEMI)%N then
              let l := add (indent st) (lines st) (slice s (b st) (e - 1)) in
              Continue (mkState e e (indent st) l)
            else
              Continue (mkState (b st) e (indent st) (lines st))
        end
  end.

(** The [while i < len(s)] loop.  [None] means that the fuel ran out. *)
Fixpoint loop (fuel : nat) (s : pystr) (st : state) : option (res state) :=
  match fuel with
  | O => None
  | S fuel' =>
      if i st <? len s then
        match body s st with
        | Continue st' => loop fuel' s st'
        | Break st' => Some (Ok st')
        | Abort e => Some (Raise e)
        end
      else Some (Ok st)
  end.

Definition init : state := mkState 0 0 0 [].

(** The pass with its final state; the fuel exceeds the number of
    iterations, see [run_terminates]. *)
Definition run (s : pystr) : option (res state) :=
  loop (S (List.length s)) s init.

Definition make_script (s : pystr) : option (res (list pystr)) :=
  match run s with
  | Some (Ok st) => Some (Ok (lines st))
  | Some (Raise e) => Some (Raise e)
  | None => None
  end.

(** * Vocabulary of the properties *)

(** The group of [PAT] that follows the leading class. *)
Definition GROUP : regex :=
  Or (Class is_delim) (Or (QUOTED DQUOTE) (QUOTED SQUOTE)).

(** The first and the last character of [x] are not white space. *)
Definition trimmed (x : pystr) : Prop :=
  (forall c y, x = c :: y -> isspace c = false) /\
  (forall c y, x = y ++ [c] -> isspace c = false).

(** The lines that [add] appends for [line] at depth [indent]: one line,
    or none when nothing is left of [line] after stripping. *)
Definition emitted (indent : Z) (line : pystr) : list pystr :=
  add indent [] line.

(** The shape of an output line at depth [d]. *)
Definition line_at (d : Z) (l : pystr) : Prop :=
  exists content,
    l = str_mul INDENT_UNIT d ++ content /\ content <> [] /\ trimmed content.

(** An output line at some depth that is not negative. *)
Definition output_line (l : pystr) : Prop := exists d, 0 <= d /\ line_at d l.

(** The four synthesized lines, the header at depth [d] and the three
    derivations one level deeper. *)
Definition loop_preamble (d : Z) : list pystr :=
  [ str_mul INDENT_UNIT d ++ str "for (L,S) in enumerate(fileinput.input()):";
    str_mul INDENT_UNIT (d + 1) ++ str "s = S.strip()";
    str_mul INDENT_UNIT (d + 1) ++ str "F = s.split(DELIM)";
    str_mul INDENT_UNIT (d + 1) ++ str "I = [ toint(v) for v in F ]" ].

(** ** States of the loop *)

(** What the loop maintains between iterations. *)
Definition inv (s : pystr) (st : state) : Prop :=
  0 <= b st <= i st /\ i st <= len s /\ 0 <= indent st.

(** The states in which the loop test is evaluated. *)
Inductive reachable (s : pystr) : state -> Prop :=
| reach_init : reachable s init
| reach_step (st st' : state) :
    reachable s st -> i st < len s -> body s st = Continue st' ->
    reachable s st'.

(** How the loop is left from [st]: the test fails, the [break], or the
    [raise]. *)
Definition stops (s : pystr) (st : state) (r : res state) : Prop :=
  (len s <= i st /\ r = Ok st) \/
  (i st < len s /\ exists st', body s st = Break st' /\ r = Ok st') \/
  (i st < len s /\ exists x, body s st = Abort x /\ r = Raise x).

(** ** Inputs and instances of the examples *)

(** The builtin [int] on a [str], in base 10, as CPython 3.11 parses it,
    to put in the place of the parameter of [toint] in the examples.  The
    text is white space, an optional sign, digits and white space.  The
    digits are the decimal digits of Unicode 14.0, ten consecutive code
    points from each of [DIGIT_ZEROS]; single underscores may stand
    between digits.  Below code point 128 the white space is that of C:
    the separators 28 to 31 are not skipped.  More than
    [MAX_STR_DIGITS] digits are refused.  Every failure is a
    [ValueError]. *)
Definition DIGIT_ZEROS : list N :=
  [ 48; 1632; 1776; 1984; 2406; 2534; 2662; 2790; 2918; 3046; 3174; 3302;
    3430; 3558; 3664; 3792; 3872; 4160; 4240; 6112; 6160; 6470; 6608; 6784;
    6800; 6992; 7088; 7232; 7248; 42528; 43216; 43264; 43472; 43504; 43600;
    44016; 65296; 66720; 68912; 69734; 69872; 69942; 70096; 70384; 70736;
    70864; 71248; 71360; 71472; 71904; 72016; 72784; 73040; 73120; 92768;
    92864; 93008; 120782; 120792; 120802; 120812; 120822; 123200; 123632;
    125264; 130032 ]%N.

Definition MAX_STR_DIGITS : N := 4300%N.

Definition decimal_digit (c : char) : option Z :=
  match List.find (fun z => (z <=? c) && (c <? z + 10))%N DIGIT_ZEROS with
  | Some z => Some (Z.of_N (c - z))
  | None => None
  end.

Definition int_space (c : char) : bool :=
  if (c <? 128)%N then ((9 <=? c) && (c <=? 13) || (c =? 32))%N else isspace c.

Fixpoint skip_space (x : pystr) : pystr :=
  match x with
  | c :: x' => if int_space c then skip_space x' else x
  | [] => []
  end.

(** The digits of [x]: their value and their number.  [after_digit]
    tells whether the character before was a digit. *)
Fixpoint parse_digits (acc : Z) (n : N) (after_digit : bool) (x : pystr)
  : option (Z * N) :=
  match x with
  | [] => if after_digit then Some (acc, n) else None
  | c :: x' =>
      match decimal_digit c with
      | Some v => parse_digits (10 * acc + v) (n + 1) true x'
      | None =>
          if (c =? 95)%N && after_digit
          then parse_digits acc n false x'
          else None
      end
  end.

Definition int_str (x : pystr) : res Z :=
  let x := rev (skip_space (rev (skip_space x))) in
  let (negative, digits) :=
    match x with
    | c :: y =>
        if (c =? 45)%N then (true, y)
        else if (c =? 43)%N then (false, y)
        else (false, x)
    | [] => (false, [])
    end in
  match parse_digits 0 0 false digits with
  | Some (v, n) =>
      if (MAX_STR_DIGITS <? n)%N then Raise ValueError
      else Ok (if negative then - v else v)
  | None => Raise ValueError
  end.

(** The input [print(] D [a;b{c}d] D [)], with D the double quote. *)
Definition quoted_print : pystr :=
  str "print(" ++ [DQUOTE] ++ str "a;b{c}d" ++ [DQUOTE] ++ str ")".

(** The input D [a] D, one double-quoted literal. *)
Definition lone_literal : pystr := [DQUOTE] ++ str "a" ++ [DQUOTE].

(** * The command line: [main]

    [main] is embedded from the call of [getopt] on.  The parser of the
    standard library and the interpreter ([eval] of the compiled script)
    are parameters: the interpreter tells how the evaluation of a script
    ends, and [main] ends accordingly. *)

Definition COMMA : char := 44%N.

(** [x.split(c)] for a separator [c] of one character. *)
Fixpoint split_on (c : char) (x : pystr) : list pystr :=
  match x with
  | [] => [[]]
  | d :: x' =>
      match split_on c x' with
      | p :: ps => if (d =? c)%N then [] :: p :: ps else (d :: p) :: ps
      | [] => [[d]]
      end
  end.

(** [sep.join(ls)] *)
Fixpoint join (sep : pystr) (ls : list pystr) : pystr :=
  match ls with
  | [] => []
  | x :: ls' =>
      match ls' with
      | [] => x
      | _ :: _ => x ++ sep ++ join sep ls'
      end
  end.

(** The mode given to [compile]. *)
Inductive mode : Type := Single | Exec.

(** The names that the script sees.  Without dictionaries, [eval] runs
    the script in the frame of [main] itself, where [argv] is the
    argument of [main] (and the other locals of [main] are visible);
    with the dictionaries [_globals] and [_locals], saved on entry, [argv]
    is what [main] stored in [_locals]. *)
Inductive environment : Type :=
| FrameOfMain (argv : list pystr)
| SavedNames (argv : list pystr).

(** How the evaluation of a script ends: [eval] returns a value, [None]
    for Python's [None] and otherwise the text that [print] shows for
    it; or it raises, also when [compile] refuses the script; or it does
    not return. *)
Inductive behaviour : Type :=
| Returns (value : option pystr)
| Throws (e : exn)
| Loops.

(** How [main] ends: it prints [text] and returns [code]; or, after the
    evaluation of the script, it prints [shown] unless that is [None] and
    returns [code]; or it never returns, because the evaluation does
    not. *)
Inductive outcome : Type :=
| Exit (text : pystr) (code : Z)
| Evaluated (shown : option pystr) (code : Z)
| Unfinished.

(** The nested function [usage] of [main]; [argv[0]] is a subscript. *)
Definition usage (argv : list pystr) : res outcome :=
  match argv with
  | prog :: _ =>
      Ok (Exit (str "usage: " ++ prog
                  ++ str " [-d] [-i modules] [-f modules] [-F delim] script [args ...]")
               111)
  | [] => Raise IndexError
  end.

(** The body of [for (k, v) in opts], on the pair of [debug] and
    [lines]. *)
Definition option_step (acc : Z * list pystr) (kv : pystr * pystr)
  : Z * list pystr :=
  let (debug, lines) := acc in
  let (k, v) := kv in
  if pystr_eqb k (str "-d") then (debug + 1, lines)
  else if pystr_eqb k (str "-i") then (debug, lines ++ [str "import " ++ v])
  else if pystr_eqb k (str "-f") then
    (debug,
     lines ++ List.map (fun m => str "from " ++ m ++ str " import *")
                       (split_on COMMA v))
  else (debug, lines).

Section Main.

(** [getopt.getopt(args, 'di:f:F:')]; [None] stands for [getopt.error]. *)
Variable getopt : list pystr -> option (list (pystr * pystr) * list pystr).

(** [eval(compile(script, '<script>', mode), ...)] in an environment,
    after [sys.argv] was set to the last argument. *)
Variable evaluate : mode -> pystr -> environment -> list pystr -> behaviour.

(** [main(argv)].  As for [make_script], [None] means that the fuel of
    the expansion ran out. *)
Definition main (argv : list pystr) : option (res outcome) :=
  match getopt (List.tl argv) with
  | None => Some (usage argv)
  | Some (opts, args) =>
      let (debug, lines) := List.fold_left option_step opts (0, []) in
      match args with
      | [] => Some (usage argv)
      | script :: _ =>
          match make_script script with
          | None => None
          | Some (Raise e) => Some (Raise e)
          | Some (Ok expanded) =>
              let lines := lines ++ expanded in
              let script := join [NEWLINE] lines in
              if negb (debug =? 0) then Some (Ok (Exit script 0))
              else if (List.length lines =? 1)%nat then
                match evaluate Single script (FrameOfMain argv) args with
                | Returns r => Some (Ok (Evaluated r 0))
                | Throws e => Some (Raise e)
                | Loops => Some (Ok Unfinished)
                end
              else
                match evaluate Exec script (SavedNames args) args with
                | Returns _ => Some (Ok (Evaluated None 0))
                | Throws e => Some (Raise e)
                | Loops => Some (Ok Unfinished)
                end
          end
      end
  end.

End Main.

(** ** Vocabulary of the further properties *)

(** The depth after the braces of [t], from depth [d]; [None] when a
    closing brace meets depth 0. *)
Fixpoint depth_after (d : Z) (t : pystr) : option Z :=
  match t with
  | [] => Some d
  | c :: t' =>
      if (c =? LBRACE)%N then depth_after (d + 1) t'
      else if (c =? RBRACE)%N then
        if d - 1 <? 0 then None else depth_after (d - 1) t'
      else depth_after d t'
  end.

(** No quote in [t]. *)
Definition quote_free (t : pystr) : bool :=
  forallb (fun c => is_plain c || is_delim c) t.

(** Neither a quote nor a brace in [t]. *)
Definition brace_free (t : pystr) : bool :=
  forallb (fun c => is_plain c || (c =? SEMI)%N) t.

(** Neither the quote [q] nor a backslash in [w]. *)
Definition literal_text (q : char) (w : pystr) : bool :=
  forallb (fun c => negb (c =? q)%N && negb (c =? BACKSLASH)%N) w.

(** The options that [main] acts on. *)
Definition known_option (kv : pystr * pystr) : bool :=
  pystr_eqb (fst kv) (str "-d") || pystr_eqb (fst kv) (str "-i")
  || pystr_eqb (fst kv) (str "-f").

(** The lines that one option puts before the script. *)
Definition option_lines (kv : pystr * pystr) : list pystr :=
  if pystr_eqb (fst kv) (str "-i") then [str "import " ++ snd kv]
  else if pystr_eqb (fst kv) (str "-f") then
    List.map (fun m => str "from " ++ m ++ str " import *")
             (split_on COMMA (snd kv))
  else [].

(** A string that is not empty. *)
Definition non_empty (l : pystr) : bool :=
  match l with [] => false | _ :: _ => true end.

(** The option [-d]. *)
Definition debug_option (kv : pystr * pystr) : bool :=
  pystr_eqb (fst kv) (str "-d").

(** An option that adds lines, [-i] or [-f]. *)
Definition import_option (kv : pystr * pystr) : bool :=
  pystr_eqb (fst kv) (str "-i") || pystr_eqb (fst kv) (str "-f").

(** How [main] ends after an evaluation in mode [m] that ends as [b]. *)
Definition finish (m : mode) (b : behaviour) : option (res outcome) :=
  match b with
  | Returns r =>
      Some (Ok (Evaluated (match m with Single => r | Exec => None end) 0))
  | Throws e => Some (Raise e)
  | Loops => Some (Ok Unfinished)
  end.

(** An interpreter for the examples: it raises on the script [1/0], does
    not return from [while 1:] and returns [None] from any other
    script. *)
Definition sample_evaluate (m : mode) (script : pystr) (env : environment)
           (sys_argv : list pystr) : behaviour :=
  if pystr_eqb script (str "1/0") then Throws OtherError
  else if pystr_eqb (firstn 8 script) (str "while 1:") then Loops
  else Returns None.


(** * Properties *)

(** ** The scanner *)

Section Scanner.

Variable q : char.

Let escape_or_char : regex :=
  Or (Seq (Class (N.eqb BACKSLASH)) (Class dot))
     (Class (fun c => negb (c =? q)%N)).

Let closing : @cont pystr := fun t => exec (Class (N.eqb q)) t Some.

Lemma iterate_quoted (n : nat) :
  forall t, (List.length t <= n)%nat ->
  iterate (exec escape_or_char) n t closing
  = option_map (fun m => skipn m t) (quoted q t).
Proof.
  induction n as [|n IH]; intros t Hlen.
  - destruct t; [reflexivity | simpl in Hlen; lia].
  - destruct t as [|c t']; [reflexivity|].
    simpl in Hlen.
    assert (Ht' : iterate (exec escape_or_char) n t' closing
                  = option_map (fun m => skipn m t') (quoted q t'))
      by (apply IH; lia).
    cbn [iterate exec escape_or_char quoted].
    assert (Hsingle :
      match (if negb (c =? q)%N
             then if (List.length t' <? List.length (c :: t'))%nat
                  then iterate (exec escape_or_char) n t' closing else None
             else None) with
      | Some x => Some x
      | None => closing (c :: t')
      end
      = option_map (fun m => skipn m (c :: t'))
          (if (c =? q)%N then Some 1%nat else option_map S (quoted q t'))).
    { replace (List.length t' <? List.length (c :: t'))%nat with true
        by (symmetry; apply Nat.ltb_lt; simpl; lia).
      unfold closing at 2. cbn [exec].
      rewrite (N.eqb_sym q c).
      destruct (c =? q)%N; cbn [negb]; [reflexivity|].
      rewrite Ht'. destruct (quoted q t'); reflexivity. }
    destruct (BACKSLASH =? c)%N; [|exact Hsingle].
    destruct t' as [|d t'']; [exact Hsingle|].
    destruct (dot d); [|exact Hsingle].
    replace (List.length t'' <? List.length (c :: d :: t''))%nat with true
      by (symmetry; apply Nat.ltb_lt; simpl; lia).
    rewrite IH by (simpl in Hlen; lia).
    destruct (quoted q t'') as [m|]; [reflexivity | exact Hsingle].
Qed.

Lemma exec_QUOTED_TAIL (t : pystr) :
  exec (QUOTED_TAIL q) t Some = option_map (fun m => skipn m t) (quoted q t).
Proof. apply (iterate_quoted (List.length t)). lia. Qed.

End Scanner.

Lemma quoted_bounds (q : char) :
  forall t n, quoted q t = Some n -> (1 <= n <= List.length t)%nat.
Proof.
  intros t. remember (List.length t) as k eqn:Hk.
  revert t Hk. induction k as [k IH] using lt_wf_ind. intros t Hk n H.
  destruct t as [|c t']; [discriminate|]. simpl in Hk.
  assert (Hsingle :
    (if (c =? q)%N then Some 1%nat else option_map S (quoted q t')) = Some n ->
    (1 <= n <= k)%nat).
  { destruct (c =? q)%N.
    - intros [= <-]. lia.
    - destruct (quoted q t') as [m|] eqn:E; [|discriminate].
      intros [= <-]. apply (IH (List.length t')) in E; lia. }
  cbn [quoted] in H.
  destruct (BACKSLASH =? c)%N; [|exact (Hsingle H)].
  destruct t' as [|d t'']; [exact (Hsingle H)|].
  destruct (dot d); [|exact (Hsingle H)].
  destruct (quoted q t'') as [m|] eqn:E; [|exact (Hsingle H)].
  injection H as <-. apply (IH (List.length t'')) in E; simpl in *; lia.
Qed.

Lemma PAT_len_bounds :
  forall t n, PAT_len t = Some n -> (1 <= n <= List.length t)%nat.
Proof.
  induction t as [|c t' IH]; intros n H; [discriminate|].
  simpl in H. destruct (is_plain c).
  - destruct (PAT_len t') as [m|]; [|discriminate].
    injection H as <-. specialize (IH m eq_refl). simpl. lia.
  - destruct (is_delim c).
    + injection H as <-. simpl. lia.
    + destruct (quoted c t') as [m|] eqn:E; [|discriminate].
      injection H as <-. apply quoted_bounds in E. simpl. lia.
Qed.

Lemma exec_GROUP (c : char) (t : pystr) :
  exec GROUP (c :: t) Some
  = if is_plain c then None
    else if is_delim c then Some t
    else option_map (fun m => skipn m t) (quoted c t).
Proof.
  unfold GROUP, QUOTED. cbn [exec].
  rewrite !exec_QUOTED_TAIL.
  unfold is_plain.
  destruct (is_delim c) eqn:Hd.
  - rewrite orb_true_r. reflexivity.
  - rewrite orb_false_r.
    destruct (N.eqb_spec c DQUOTE) as [->|Hdq].
    + simpl. destruct (quoted DQUOTE t); reflexivity.
    + destruct (N.eqb_spec DQUOTE c) as [E|_]; [congruence|].
      destruct (N.eqb_spec c SQUOTE) as [->|Hsq].
      * simpl. destruct (quoted SQUOTE t); reflexivity.
      * destruct (N.eqb_spec SQUOTE c) as [E|_]; [congruence|]. reflexivity.
Qed.

Lemma iterate_plain (n : nat) :
  forall t, (List.length t <= n)%nat ->
  iterate (exec (Class is_plain)) n t (fun t' => exec GROUP t' Some)
  = option_map (fun m => skipn m t) (PAT_len t).
Proof.
  induction n as [|n IH]; intros t Hlen.
  - destruct t; [reflexivity | simpl in Hlen; lia].
  - destruct t as [|c t']; [reflexivity|].
    simpl in Hlen. cbn [iterate exec PAT_len].
    replace (List.length t' <? List.length (c :: t'))%nat with true
      by (symmetry; apply Nat.ltb_lt; simpl; lia).
    rewrite IH by lia.
    change (exec (Or (Class is_delim) (Or (QUOTED DQUOTE) (QUOTED SQUOTE)))
              (c :: t') Some) with (exec GROUP (c :: t') Some).
    rewrite exec_GROUP.
    destruct (is_plain c).
    + destruct (PAT_len t'); reflexivity.
    + destruct (is_delim c); [reflexivity|].
      destruct (quoted c t'); reflexivity.
Qed.

Lemma exec_PAT (t : pystr) :
  exec PAT t Some = option_map (fun m => skipn m t) (PAT_len t).
Proof. apply (iterate_plain (List.length t)). lia. Qed.

Lemma len_nonneg (s : pystr) : 0 <= len s.
Proof. unfold len. lia. Qed.

Lemma len_app (x y : pystr) : len (x ++ y) = len x + len y.
Proof. unfold len. rewrite length_app. lia. Qed.

Lemma bound_id (s : pystr) (k : Z) : 0 <= k <= len s -> bound s k = k.
Proof. unfold bound. intros H. destruct (Z.ltb_spec k 0); lia. Qed.

(** The matcher and the recursive scanner agree at every position of the
    text. *)
Lemma PAT_match_len (s : pystr) (i : Z) :
  0 <= i <= len s ->
  PAT_match s i
  = option_map (fun n => i + Z.of_nat n) (PAT_len (skipn (Z.to_nat i) s)).
Proof.
  intros Hi. unfold PAT_match, slice_from.
  rewrite bound_id by assumption. rewrite exec_PAT.
  destruct (PAT_len (skipn (Z.to_nat i) s)) as [n|] eqn:E; [|reflexivity].
  apply PAT_len_bounds in E. rewrite length_skipn in E.
  simpl. f_equal. unfold len in *. rewrite !length_skipn. lia.
Qed.

(** Every match consumes at least one character and stays inside the
    text. *)
Lemma PAT_match_bounds (s : pystr) (i e : Z) :
  0 <= i <= len s -> PAT_match s i = Some e -> i < e <= len s.
Proof.
  intros Hi H. rewrite PAT_match_len in H by assumption.
  destruct (PAT_len (skipn (Z.to_nat i) s)) as [n|] eqn:E; [|discriminate].
  injection H as <-. apply PAT_len_bounds in E. rewrite length_skipn in E.
  unfold len in *. lia.
Qed.

(** ** Stripping and [add] *)

Lemma lstrip_head (x : pystr) (c : char) (y : pystr) :
  lstrip x = c :: y -> isspace c = false.
Proof.
  induction x as [|d x' IH]; simpl; [discriminate|].
  destruct (isspace d) eqn:E; [exact IH|].
  intros [= <- _]. exact E.
Qed.

Lemma lstrip_suffix (x : pystr) :
  exists p, x = p ++ lstrip x /\ forallb isspace p = true.
Proof.
  induction x as [|d x' [p [Hp Hs]]]; simpl.
  - exists []. split; reflexivity.
  - destruct (isspace d) eqn:E.
    + exists (d :: p). simpl. rewrite E, Hs. split; [congruence | reflexivity].
    + exists []. split; reflexivity.
Qed.

Lemma lstrip_blank (x : pystr) : forallb isspace x = true -> lstrip x = [].
Proof.
  induction x as [|d x' IH]; simpl; [reflexivity|].
  destruct (isspace d); [exact IH | discriminate].
Qed.

Lemma rstrip_prefix (x : pystr) :
  exists p, x = rstrip x ++ p /\ forallb isspace p = true.
Proof.
  unfold rstrip. destruct (lstrip_suffix (rev x)) as [p [Hp Hs]].
  exists (rev p). split.
  - rewrite <- rev_app_distr, <- Hp, rev_involutive. reflexivity.
  - rewrite forallb_forall in *. intros c Hc. apply Hs, in_rev, Hc.
Qed.

Lemma strip_trimmed (x : pystr) : trimmed (strip x).
Proof.
  unfold strip. split; intros c y H.
  - destruct (rstrip_prefix (lstrip x)) as [p [Hp _]].
    rewrite H in Hp. simpl in Hp. exact (lstrip_head _ _ _ Hp).
  - unfold rstrip in H. apply (f_equal (@rev char)) in H.
    rewrite rev_involutive, rev_app_distr in H. simpl in H.
    exact (lstrip_head _ _ _ H).
Qed.

Lemma strip_blank (x : pystr) : forallb isspace x = true -> strip x = [].
Proof. intros H. unfold strip. rewrite (lstrip_blank x H). reflexivity. Qed.

Lemma add_emitted (indent : Z) (ls : list pystr) (line : pystr) :
  add indent ls line = ls ++ emitted indent line.
Proof.
  unfold emitted, add. destruct (strip line); [|reflexivity].
  symmetry. apply app_nil_r.
Qed.

Lemma emitted_blank (indent : Z) (line : pystr) :
  strip line = [] -> emitted indent line = [].
Proof. unfold emitted, add. intros ->. reflexivity. Qed.

Lemma emitted_line (indent : Z) (line : pystr) :
  strip line <> [] ->
  emitted indent line = [str_mul INDENT_UNIT indent ++ strip line].
Proof.
  unfold emitted, add. destruct (strip line); [congruence | reflexivity].
Qed.

Lemma emitted_line_at (indent : Z) (line : pystr) :
  Forall (line_at indent) (emitted indent line).
Proof.
  destruct (strip line) as [|c y] eqn:E.
  - rewrite emitted_blank by assumption. constructor.
  - rewrite emitted_line by (rewrite E; discriminate).
    constructor; [|constructor].
    exists (strip line). repeat split; try apply strip_trimmed.
    rewrite E. discriminate.
Qed.

Lemma emitted_const (indent : Z) (line : pystr) :
  strip line = line -> line <> [] ->
  emitted indent line = [str_mul INDENT_UNIT indent ++ line].
Proof. intros H Hne. rewrite emitted_line; rewrite H; auto. Qed.

(** ** One iteration of the loop *)

Lemma pystr_eqb_eq (x y : pystr) : pystr_eqb x y = true <-> x = y.
Proof.
  revert y. induction x as [|c x' IH]; intros [|d y']; simpl;
    try (split; [discriminate | congruence]); [tauto|].
  rewrite andb_true_iff, N.eqb_eq, IH. split.
  - intros [-> ->]. reflexivity.
  - intros [= -> ->]. auto.
Qed.

Lemma index_in_range (s : pystr) (k : Z) :
  0 <= k < len s -> exists c, index s k = Ok c.
Proof.
  intros H. unfold index.
  destruct (Z.ltb_spec k 0); [lia|].
  destruct (Z.leb_spec 0 k); [|lia].
  destruct (Z.ltb_spec k (len s)); [|lia]. simpl.
  destruct (nth_error s (Z.to_nat k)) as [c|] eqn:E; [eauto|].
  apply nth_error_None in E. unfold len in H. lia.
Qed.

(** A match ends inside the text, whatever the start position. *)
Lemma PAT_match_range (s : pystr) (i e : Z) :
  PAT_match s i = Some e -> 1 <= e <= len s.
Proof.
  unfold PAT_match. rewrite exec_PAT.
  destruct (PAT_len (slice_from s i)) as [n|] eqn:E; [|discriminate].
  apply PAT_len_bounds in E. simpl. intros [= <-].
  unfold slice_from, len in *. rewrite !length_skipn. rewrite length_skipn in E.
  lia.
Qed.

(** The loop trigger ends with the opening brace. *)
Lemma trigger_last_char (s : pystr) (e : Z) :
  1 <= e <= len s -> slice s (e - 3) e = LOOP_TRIGGER ->
  index s (e - 1) = Ok LBRACE.
Proof.
  intros He Hs. unfold slice, bound in Hs.
  destruct (Z.ltb_spec e 0); [lia|]. rewrite (Z.min_l e) in Hs by lia.
  destruct (Z.ltb_spec (e - 3) 0) as [H3|H3].
  - apply (f_equal (@List.length char)) in Hs.
    rewrite length_firstn, length_skipn in Hs. simpl in Hs.
    unfold len in *. lia.
  - rewrite (Z.min_l (e - 3)) in Hs by lia.
    unfold index.
    destruct (Z.ltb_spec (e - 1) 0); [lia|].
    destruct (Z.leb_spec 0 (e - 1)); [|lia].
    destruct (Z.ltb_spec (e - 1) (len s)); [|lia]. simpl.
    replace (Z.to_nat (e - 1)) with (Z.to_nat (e - 3) + 2)%nat by lia.
    rewrite <- nth_error_skipn.
    destruct (skipn (Z.to_nat (e - 3)) s) as [|c0 [|c1 [|c2 r]]];
      destruct (Z.to_nat (e - (e - 3))) as [|[|[|k]]]; try discriminate.
    simpl in *. injection Hs as _ _ -> _. reflexivity.
Qed.

Lemma not_trigger (s : pystr) (i e : Z) (c : char) :
  PAT_match s i = Some e -> index s (e - 1) = Ok c -> c <> LBRACE ->
  pystr_eqb (slice s (e - 3) e) LOOP_TRIGGER = false.
Proof.
  intros Hm Hidx Hc.
  destruct (pystr_eqb (slice s (e - 3) e) LOOP_TRIGGER) eqn:E; [|reflexivity].
  apply pystr_eqb_eq, trigger_last_char in E;
    [|exact (PAT_match_range s i e Hm)].
  congruence.
Qed.

(** The case analysis of [body], in the order of its tests: the loop
    macro, an opening brace, a closing brace that raises, a closing brace
    that does not, a semicolon, a quoted literal, a subscript out of range
    and no match. *)
Ltac body_cases s st e c x Hm :=
  unfold body;
  destruct (PAT_match s (i st)) as [e|] eqn:Hm;
  [ destruct (pystr_eqb (slice s (e - 3) e) LOOP_TRIGGER) eqn:?Htrigger;
    [ | destruct (index s (e - 1)) as [c|x] eqn:?Hindex;
        [ destruct (c =? LBRACE)%N eqn:?Hopen;
          [ | destruct (c =? RBRACE)%N eqn:?Hclose;
              [ destruct (indent st - 1 <? 0) eqn:?Hneg
              | destruct (c =? SEMI)%N eqn:?Hsemi ] ]
        | ] ]
  | ].

Lemma inv_init (s : pystr) : inv s init.
Proof. unfold inv, init. simpl. pose proof (len_nonneg s). lia. Qed.

(** A further iteration moves the scan position forward and keeps the
    invariant. *)
Lemma body_continue (s : pystr) (st st' : state) :
  inv s st -> body s st = Continue st' -> inv s st' /\ i st < i st'.
Proof.
  intros (Hb & Hi & Hd).
  body_cases s st e c x Hm; intros H; try discriminate;
    injection H as <-; apply PAT_match_bounds in Hm; try lia;
    unfold inv; simpl; lia.
Qed.

Lemma body_break (s : pystr) (st st' : state) :
  body s st = Break st' ->
  PAT_match s (i st) = None /\
  st' = mkState (b st) (i st) (indent st)
          (lines st ++ emitted (indent st) (slice_from s (b st))).
Proof.
  body_cases s st e c x Hm; intros H; try discriminate.
  injection H as <-. rewrite add_emitted. auto.
Qed.

(** The subscript [s[e-1]] is always in range, and the only exception
    leaves through the [raise] statement. *)
Lemma body_abort (s : pystr) (st : state) (x : exn) :
  inv s st ->
  body s st = Abort x <->
  exists e,
    PAT_match s (i st) = Some e /\
    index s (e - 1) = Ok RBRACE /\
    indent st - 1 < 0 /\
    x = SyntaxError (ERROR_PREFIX ++ slice_from s (b st)).
Proof.
  intros (Hb & Hi & Hd). split.
  - body_cases s st e c y Hm; intros H; try discriminate.
    + injection H as <-. exists e. apply N.eqb_eq in Hclose. subst c.
      repeat split; auto. apply Z.ltb_lt. assumption.
    + apply PAT_match_bounds in Hm; [|lia].
      destruct (index_in_range s (e - 1)) as [c Hc]; [lia | congruence].
  - intros (e & Hm & Hidx & Hneg & ->).
    unfold body.
    rewrite Hm, (not_trigger s (i st) e RBRACE Hm Hidx) by discriminate.
    rewrite Hidx. simpl.
    destruct (Z.ltb_spec (indent st - 1) 0); [reflexivity | lia].
Qed.

(** The lines of a step extend those before it, each new line at the
    depth in force when [add] was called: the depth before the step or,
    for the lines after the increment of the loop macro, the depth after
    it. *)
Lemma body_lines (s : pystr) (st st' : state) :
  body s st = Continue st' \/ body s st = Break st' ->
  exists new,
    lines st' = lines st ++ new /\
    Forall (fun l => line_at (indent st) l \/
                     (indent st' = indent st + 1 /\ line_at (indent st') l)) new.
Proof.
  assert (L : forall d d' x,
    Forall (fun l => line_at d l \/ (d' = d + 1 /\ line_at d' l)) (emitted d x)).
  { intros d d' x. eapply Forall_impl; [|apply emitted_line_at]. auto. }
  assert (R : forall d x,
    Forall (fun l => line_at d l \/ (d + 1 = d + 1 /\ line_at (d + 1) l))
           (emitted (d + 1) x)).
  { intros d x. eapply Forall_impl; [|apply emitted_line_at]. auto. }
  intros [H|H]; revert H.
  - body_cases s st e c x Hm; intros H; try discriminate;
      injection H as <-; cbn [lines indent]; rewrite ?add_emitted.
    + rewrite <- !app_assoc. eexists. split; [reflexivity|].
      rewrite !Forall_app. repeat split; solve [apply L | apply R].
    + eexists. split; [reflexivity | apply L].
    + eexists. split; [reflexivity | apply L].
    + eexists. split; [reflexivity | apply L].
    + exists []. split; [symmetry; apply app_nil_r | constructor].
  - intros H. apply body_break in H as [_ ->]. cbn [lines indent].
    eexists. split; [reflexivity | apply L].
Qed.

(** ** The loop *)

Lemma reachable_inv (s : pystr) (st : state) : reachable s st -> inv s st.
Proof.
  induction 1 as [|st st' _ IH _ Hb]; [apply inv_init|].
  apply (body_continue s st st' IH Hb).
Qed.

Lemma loop_terminates (s : pystr) :
  forall fuel st,
    inv s st -> len s - i st < Z.of_nat fuel ->
    exists r, loop fuel s st = Some r.
Proof.
  induction fuel as [|fuel IH]; intros st Hinv Hfuel.
  - destruct Hinv as (_ & Hi & _). lia.
  - simpl. destruct (Z.ltb_spec (i st) (len s)); [|eauto].
    destruct (body s st) as [st'|st'|x] eqn:Hb; eauto.
    destruct (body_continue s st st' Hinv Hb) as [Hinv' Hlt].
    apply IH; [assumption | lia].
Qed.

Lemma loop_fuel_mono (s : pystr) :
  forall fuel fuel' st r,
    (fuel <= fuel')%nat -> loop fuel s st = Some r -> loop fuel' s st = Some r.
Proof.
  induction fuel as [|fuel IH]; intros fuel' st r Hle H; [discriminate|].
  destruct fuel' as [|fuel']; [lia|].
  simpl in *. destruct (i st <? len s); [|assumption].
  destruct (body s st); try assumption.
  apply IH with (fuel' := fuel') in H; [assumption | lia].
Qed.

Lemma loop_stops (s : pystr) :
  forall fuel st r,
    reachable s st -> loop fuel s st = Some r ->
    exists st', reachable s st' /\ stops s st' r.
Proof.
  induction fuel as [|fuel IH]; intros st r Hreach H; [discriminate|].
  simpl in H. destruct (Z.ltb_spec (i st) (len s)) as [Hlt|Hge].
  - destruct (body s st) as [st'|st'|x] eqn:Hb.
    + apply (IH st'); [|assumption].
      apply reach_step with st; assumption.
    + injection H as <-. exists st. split; [assumption|].
      right. left. eauto.
    + injection H as <-. exists st. split; [assumption|].
      right. right. eauto.
  - injection H as <-. exists st. split; [assumption|]. left. auto.
Qed.

Lemma stops_loop (s : pystr) (st : state) (r : res state) :
  stops s st r -> loop 1 s st = Some r.
Proof.
  intros [[Hge ->] | [[Hlt (st' & Hb & ->)] | [Hlt (x & Hb & ->)]]]; simpl.
  - destruct (Z.ltb_spec (i st) (len s)); [lia | reflexivity].
  - destruct (Z.ltb_spec (i st) (len s)); [|lia]. rewrite Hb. reflexivity.
  - destruct (Z.ltb_spec (i st) (len s)); [|lia]. rewrite Hb. reflexivity.
Qed.

Lemma reachable_loop (s : pystr) (st : state) :
  reachable s st ->
  forall fuel r, loop fuel s st = Some r ->
  exists fuel', loop fuel' s init = Some r.
Proof.
  induction 1 as [|st st' _ IH Hlt Hb]; intros fuel r H; [eauto|].
  apply (IH (S fuel)). simpl.
  destruct (Z.ltb_spec (i st) (len s)); [|lia]. rewrite Hb. exact H.
Qed.

(** [run] always has enough fuel. *)
Lemma run_terminates (s : pystr) : exists r, run s = Some r.
Proof.
  apply loop_terminates; [apply inv_init|].
  unfold init, len. simpl. lia.
Qed.

(** The result of the pass, without fuel: the loop is left from a state
    that it reaches. *)
Lemma run_stops (s : pystr) (r : res state) :
  run s = Some r <-> exists st, reachable s st /\ stops s st r.
Proof.
  split.
  - apply loop_stops, reach_init.
  - intros (st & Hreach & Hstop).
    destruct (reachable_loop s st Hreach 1%nat r (stops_loop s st r Hstop))
      as [fuel Hfuel].
    destruct (run_terminates s) as [r' Hr']. rewrite Hr'. f_equal.
    apply loop_fuel_mono with (fuel' := Nat.max fuel (S (List.length s))) in Hfuel;
      [|lia].
    apply loop_fuel_mono with (fuel' := Nat.max fuel (S (List.length s))) in Hr';
      [|lia].
    congruence.
Qed.

Lemma make_script_run (s : pystr) (ls : list pystr) :
  make_script s = Some (Ok ls) <->
  exists st, run s = Some (Ok st) /\ lines st = ls.
Proof.
  unfold make_script. destruct (run s) as [[st|x]|]; split;
    try discriminate; try (intros (st' & H & _); discriminate).
  - intros [= <-]. eauto.
  - intros (st' & [= <-] & <-). reflexivity.
Qed.

Lemma make_script_raise (s : pystr) (x : exn) :
  make_script s = Some (Raise x) <-> run s = Some (Raise x).
Proof.
  unfold make_script. destruct (run s) as [[st|y]|]; split;
    try discriminate; intros [= <-]; reflexivity.
Qed.

Lemma step_output_lines (s : pystr) (st st' : state) :
  inv s st ->
  body s st = Continue st' \/ body s st = Break st' ->
  Forall output_line (lines st) -> Forall output_line (lines st').
Proof.
  intros (_ & _ & Hd) Hb Hl.
  destruct (body_lines s st st' Hb) as (new & -> & Hnew).
  apply Forall_app. split; [assumption|].
  eapply Forall_impl; [|exact Hnew].
  intros l [H | [Hd' H]].
  - exists (indent st). auto.
  - exists (indent st'). split; [lia | assumption].
Qed.

Lemma reachable_output_lines (s : pystr) (st : state) :
  reachable s st -> Forall output_line (lines st).
Proof.
  induction 1 as [|st st' Hreach IH _ Hb]; [constructor|].
  apply (step_output_lines s st st'); auto using reachable_inv.
Qed.

Lemma run_output_lines (s : pystr) (st : state) :
  run s = Some (Ok st) -> Forall output_line (lines st) /\ 0 <= indent st.
Proof.
  intros H. apply run_stops in H as (st0 & Hreach & Hstop).
  pose proof (reachable_inv s st0 Hreach) as Hinv.
  pose proof (reachable_output_lines s st0 Hreach) as Hl.
  destruct Hstop as [[_ [= <-]] | [[_ (st' & Hb & [= <-])] | [_ (x & _ & E)]]];
    [| |discriminate].
  - destruct Hinv as (_ & _ & Hd). auto.
  - split; [apply (step_output_lines s st0 st); auto|].
    apply body_break in Hb as [_ ->]. simpl. apply Hinv.
Qed.

(** ** The loop macro *)

Lemma body_loop_macro (s : pystr) (st : state) (e : Z) :
  PAT_match s (i st) = Some e ->
  slice s (e - 3) e = LOOP_TRIGGER ->
  body s st
  = Continue (mkState e e (indent st + 1)
       (lines st ++ emitted (indent st) (slice s (b st) (e - 3))
                 ++ loop_preamble (indent st))).
Proof.
  intros Hm Htr. unfold body. rewrite Hm.
  destruct (pystr_eqb (slice s (e - 3) e) LOOP_TRIGGER) eqn:E.
  - rewrite !add_emitted, <- !app_assoc.
    rewrite (emitted_const _ LOOP_HEADER), (emitted_const _ LOOP_STRIP),
      (emitted_const _ LOOP_SPLIT), (emitted_const _ LOOP_INTS)
      by (vm_compute; congruence).
    reflexivity.
  - rewrite Htr in E. vm_compute in E. discriminate.
Qed.

Lemma int_str_raises (x : pystr) (e : exn) :
  int_str x = Raise e -> e = ValueError.
Proof.
  unfold int_str.
  destruct (match rev (skip_space (rev (skip_space x))) with
            | [] => (false, [])
            | c :: y =>
                if (c =? 45)%N then (true, y)
                else if (c =? 43)%N then (false, y)
                else (false, rev (skip_space (rev (skip_space x))))
            end) as [negative digits].
  destruct (parse_digits 0 0 false digits) as [[v n]|]; [|congruence].
  destruct (MAX_STR_DIGITS <? n)%N; congruence.
Qed.

(** The lines of the state in which the loop is left extend those of
    the state from which it runs. *)
Lemma loop_lines_prefix (s : pystr) :
  forall fuel st stf,
    loop fuel s st = Some (Ok stf) -> exists tail, lines stf = lines st ++ tail.
Proof.
  induction fuel as [|fuel IH]; intros st stf H; [discriminate|].
  simpl in H. destruct (i st <? len s).
  - destruct (body s st) as [st'|st'|x] eqn:Hb; [| |discriminate].
    + destruct (body_lines s st st' (or_introl Hb)) as (new & Hnew & _).
      destruct (IH st' stf H) as [tail Htail].
      exists (new ++ tail). rewrite Htail, Hnew, app_assoc. reflexivity.
    + injection H as <-.
      destruct (body_lines s st st' (or_intror Hb)) as (new & Hnew & _).
      eauto.
  - injection H as <-. exists []. symmetry. apply app_nil_r.
Qed.

(** The pass is the loop run from any state that it reaches. *)
Lemma run_from_reachable (s : pystr) (st : state) :
  reachable s st -> run s = loop (S (List.length s)) s st.
Proof.
  intros Hreach. pose proof (reachable_inv s st Hreach) as Hinv.
  destruct (loop_terminates s (S (List.length s)) st Hinv) as [r Hr].
  { destruct Hinv as (Hb & _ & _). unfold len. lia. }
  rewrite Hr. apply run_stops.
  apply (loop_stops s _ st r Hreach Hr).
Qed.

(** Claim C1.  When the match of the scanner ends with the loop trigger
    [EL{], the iteration of [make_script] appends, in this order: the span
    before the trigger without its two letters, stripped, at the current
    depth and without a colon (nothing when it is blank); the header line
    [for (L,S) in enumerate(fileinput.input()):] at the same depth; and,
    one level deeper, the three lines [s = S.strip()],
    [F = s.split(DELIM)] and [I = [ toint(v) for v in F ]].  The loop goes
    on from the end of the match at the incremented depth.  When the
    pass reaches such a match, the lines that [make_script] returns are
    the lines emitted before the match, then these lines, then the lines
    of the rest of the input; when the trigger ends the input they are
    the last lines.  [toint], for a builtin [int] that raises nothing but
    [ValueError] on strings, returns the integer that [int] parses and 0
    when [int] fails, and never raises. *)
Theorem loop_macro_expansion
  (int : pystr -> res Z)
  (int_raises : forall x e, int x = Raise e -> e = ValueError)
  (s : pystr) (st : state) (e : Z)
  (Hmatch : PAT_match s (i st) = Some e)
  (Htrigger : slice s (e - 3) e = str "EL{") :
  let d := indent st in
  let span := slice s (b st) (e - 3) in
  let new :=
    match strip span with
    | [] => []
    | _ :: _ => [str_mul (str "    ") d ++ strip span]
    end
    ++ [ str_mul (str "    ") d
           ++ str "for (L,S) in enumerate(fileinput.input()):";
         str_mul (str "    ") (d + 1) ++ str "s = S.strip()";
         str_mul (str "    ") (d + 1) ++ str "F = s.split(DELIM)";
         str_mul (str "    ") (d + 1) ++ str "I = [ toint(v) for v in F ]" ] in
  let st' := mkState e e (d + 1) (lines st ++ new) in
  body s st = Continue st'
  /\ (forall fuel, i st < len s -> loop (S fuel) s st = loop fuel s st')
  /\ (reachable s st -> i st < len s ->
      reachable s st'
      /\ (forall stf,
            run s = Some (Ok stf) ->
            exists tail, lines stf = lines st ++ new ++ tail)
      /\ (forall ls,
            make_script s = Some (Ok ls) ->
            exists tail, ls = lines st ++ new ++ tail)
      /\ (e = len s -> make_script s = Some (Ok (lines st ++ new))))
  /\ (forall x n, int x = Ok n -> toint int x 0 = Ok n)
  /\ (forall x, (forall n, int x <> Ok n) -> toint int x 0 = Ok 0)
  /\ (forall x, exists n, toint int x 0 = Ok n).
Proof.
  intros d span new st'.
  assert (Hb : body s st = Continue st').
  { rewrite (body_loop_macro s st e Hmatch Htrigger). reflexivity. }
  assert (Hstep : forall fuel, i st < len s ->
                  loop (S fuel) s st = loop fuel s st').
  { intros fuel Hlt. simpl.
    destruct (Z.ltb_spec (i st) (len s)); [|lia]. rewrite Hb. reflexivity. }
  split; [exact Hb|]. split; [exact Hstep|]. split; [|split; [|split]].
  - intros Hreach Hlt.
    assert (Hreach' : reachable s st') by (apply reach_step with st; assumption).
    assert (Hrun : forall stf,
              run s = Some (Ok stf) ->
              exists tail, lines stf = lines st ++ new ++ tail).
    { intros stf Hr. rewrite (run_from_reachable s st Hreach), Hstep in Hr
        by assumption.
      destruct (loop_lines_prefix s _ st' stf Hr) as [tail Htail].
      exists tail. rewrite Htail. unfold st'. simpl. apply eq_sym, app_assoc. }
    split; [exact Hreach'|]. split; [exact Hrun|]. split.
    + intros ls Hls. apply make_script_run in Hls as (stf & Hr & <-).
      exact (Hrun stf Hr).
    + intros He. apply make_script_run. exists st'. split; [|reflexivity].
      apply run_stops. exists st'. split; [exact Hreach'|].
      left. split; [|reflexivity]. unfold st'. simpl. lia.
  - intros x n H. unfold toint. rewrite H. reflexivity.
  - intros x H. unfold toint. destruct (int x) as [n|y] eqn:E.
    + elim (H n). reflexivity.
    + rewrite (int_raises x y E). reflexivity.
  - intros x. unfold toint. destruct (int x) as [n|y] eqn:E; [eauto|].
    rewrite (int_raises x y E). eauto.
Qed.

Lemma loop_macro_expansion_witness :
  body (str "x = 1;y EL{z}") (mkState 6 6 0 [str "x = 1"])
  = Continue (mkState 11 11 1
      [ str "x = 1"; str "y";
        str "for (L,S) in enumerate(fileinput.input()):";
        str "    s = S.strip()";
        str "    F = s.split(DELIM)";
        str "    I = [ toint(v) for v in F ]" ])
  /\ (exists tail,
        [ str "x = 1"; str "y";
          str "for (L,S) in enumerate(fileinput.input()):";
          str "    s = S.strip()";
          str "    F = s.split(DELIM)";
          str "    I = [ toint(v) for v in F ]";
          str "    z" ]
        = [str "x = 1"]
          ++ [ str "y";
               str "for (L,S) in enumerate(fileinput.input()):";
               str "    s = S.strip()";
               str "    F = s.split(DELIM)";
               str "    I = [ toint(v) for v in F ]" ]
          ++ tail)
  /\ make_script (str "x = 1;y EL{")
     = Some (Ok [ str "x = 1"; str "y";
                  str "for (L,S) in enumerate(fileinput.input()):";
                  str "    s = S.strip()";
                  str "    F = s.split(DELIM)";
                  str "    I = [ toint(v) for v in F ]" ])
  /\ toint int_str (str " 42 ") 0 = Ok 42
  /\ toint int_str (str "4x2") 0 = Ok 0.
Proof.
  assert (Hreach : forall rest,
            rest = str "z}" \/ rest = [] ->
            reachable (str "x = 1;y EL{" ++ rest) (mkState 6 6 0 [str "x = 1"])).
  { intros rest [->| ->];
      (apply reach_step with init; [apply reach_init | reflexivity | reflexivity]). }
  pose proof (loop_macro_expansion int_str int_str_raises
                (str "x = 1;y EL{z}") (mkState 6 6 0 [str "x = 1"]) 11
                eq_refl eq_refl) as (H1 & _ & H2 & H3 & H4 & _).
  pose proof (loop_macro_expansion int_str int_str_raises
                (str "x = 1;y EL{") (mkState 6 6 0 [str "x = 1"]) 11
                eq_refl eq_refl) as (_ & _ & H5 & _).
  split; [exact H1|]. split; [|split; [|split]].
  - destruct (H2 (Hreach (str "z}") (or_introl eq_refl)) eq_refl)
      as (_ & _ & Hls & _).
    apply (Hls [ str "x = 1"; str "y";
                 str "for (L,S) in enumerate(fileinput.input()):";
                 str "    s = S.strip()";
                 str "    F = s.split(DELIM)";
                 str "    I = [ toint(v) for v in F ]";
                 str "    z" ]).
    reflexivity.
  - destruct (H5 (Hreach [] (or_intror eq_refl)) eq_refl) as (_ & _ & _ & Hend).
    apply Hend. reflexivity.
  - apply H3. reflexivity.
  - apply H4. intros n. vm_compute. discriminate.
Defined.

(** ** Errors *)



(** ** Worked inputs *)

(** Claim C3, as stated: five output lines for [A{B{C}D}].  The pass
    returns four. *)
Lemma nested_blocks_not_five_lines :
  ~ exists ls,
      make_script (str "A{B{C}D}") = Some (Ok ls) /\ List.length ls = 5%nat.
Proof.
  intros (ls & H & Hlen). vm_compute in H. injection H as <-. discriminate.
Qed.

(** Claim C3, amended.  For [A{B{C}D}] the pass returns four lines, [A:],
    [B:], [C] and [D], at the depths 0, 1, 2 and 1, and the depth is 0 at
    the end: the second closing brace follows [D] and closes the outer
    block without a line of its own. *)
Theorem nested_blocks_four_lines :
  exists st,
    run (str "A{B{C}D}") = Some (Ok st) /\
    make_script (str "A{B{C}D}") = Some (Ok (lines st)) /\
    lines st = [ str_mul (str "    ") 0 ++ str "A:";
                 str_mul (str "    ") 1 ++ str "B:";
                 str_mul (str "    ") 2 ++ str "C";
                 str_mul (str "    ") 1 ++ str "D" ] /\
    indent st = 0.
Proof.
  eexists. split; [vm_compute; reflexivity|].
  repeat split; vm_compute; reflexivity.
Qed.

(** Claim C4, as stated: the header at depth 1 followed by four
    derivation lines at depth 2 and then [Q].  Only three lines stand
    between the header and [Q]. *)
Lemma loop_macro_not_four_derivations :
  ~ exists h d1 d2 d3 d4,
      make_script (str "P{EL{Q}}")
      = Some (Ok [ str "P:";
                   str_mul (str "    ") 1 ++ h;
                   str_mul (str "    ") 2 ++ d1;
                   str_mul (str "    ") 2 ++ d2;
                   str_mul (str "    ") 2 ++ d3;
                   str_mul (str "    ") 2 ++ d4;
                   str_mul (str "    ") 2 ++ str "Q" ]).
Proof.
  intros (h & d1 & d2 & d3 & d4 & H). vm_compute in H.
  apply (f_equal (fun r => match r with
                           | Some (Ok ls) => List.length ls
                           | _ => O
                           end)) in H.
  discriminate.
Qed.

(** Claim C4, amended.  For [P{EL{Q}}] the four iterations of the loop
    give: [P:] at depth 0, after which the depth is 1; the header line at
    depth 1 and the three derivation lines at depth 2, after which the
    depth is 2; [Q] at depth 2, after which the depth is 1; and nothing
    for the last brace, after which the depth is 0.  The header and the
    derivations are four synthesized lines in all. *)
Theorem loop_macro_in_block :
  let s := str "P{EL{Q}}" in
  exists st1 st2 st3 st4,
    body s init = Continue st1 /\
    body s st1 = Continue st2 /\
    body s st2 = Continue st3 /\
    body s st3 = Continue st4 /\
    run s = Some (Ok st4) /\
    lines st1 = [str "P:"] /\ indent st1 = 1 /\
    lines st2 = lines st1
                ++ [ str_mul (str "    ") 1
                       ++ str "for (L,S) in enumerate(fileinput.input()):";
                     str_mul (str "    ") 2 ++ str "s = S.strip()";
                     str_mul (str "    ") 2 ++ str "F = s.split(DELIM)";
                     str_mul (str "    ") 2 ++ str "I = [ toint(v) for v in F ]" ] /\
    indent st2 = 2 /\
    lines st3 = lines st2 ++ [str_mul (str "    ") 2 ++ str "Q"] /\
    indent st3 = 1 /\
    lines st4 = lines st3 /\ indent st4 = 0 /\
    make_script s = Some (Ok (lines st4)) /\
    List.length (lines st4) = 6%nat.
Proof.
  intros s. do 4 eexists.
  split; [vm_compute; reflexivity|].
  split; [vm_compute; reflexivity|].
  split; [vm_compute; reflexivity|].
  split; [vm_compute; reflexivity|].
  repeat split; vm_compute; reflexivity.
Qed.

(** Claim C5.  For [print(] D [a;b{c}d] D [)] the pass returns one line,
    the input itself, at depth 0.  The first match runs over the whole
    quoted literal and ends on its closing quote, so that the delimiters
    inside are not seen; the span is not split and the depth stays 0 in
    both iterations. *)
Theorem quoted_delimiters_ignored :
  make_script quoted_print = Some (Ok [quoted_print])
  /\ PAT_match quoted_print 0 = Some 15
  /\ index quoted_print (15 - 1) = Ok DQUOTE
  /\ body quoted_print init = Continue (mkState 0 15 0 [])
  /\ PAT_match quoted_print 15 = None
  /\ body quoted_print (mkState 0 15 0 [])
     = Break (mkState 0 15 0 [str_mul (str "    ") 0 ++ quoted_print])
  /\ run quoted_print = Some (Ok (mkState 0 15 0 [quoted_print])).
Proof. repeat split; vm_compute; reflexivity. Qed.

(** ** The text after the last delimiter *)

(** When the scanner finds no match, the text from the start of the
    current span is stripped and appended, unless it is blank, and the
    pass ends at the same depth. *)
Lemma run_no_match (s : pystr) (st : state) :
  reachable s st -> i st < len s -> PAT_match s (i st) = None ->
  run s = Some (Ok (mkState (b st) (i st) (indent st)
                      (lines st ++ emitted (indent st) (slice_from s (b st))))).
Proof.
  intros Hreach Hlt Hm. apply run_stops. exists st. split; [assumption|].
  right. left. split; [assumption|]. eexists. split; [|reflexivity].
  unfold body. rewrite Hm, add_emitted. reflexivity.
Qed.

(** Claim C6.  The text after the last delimiter is lost when it ends
    with a complete quoted literal: the match of the literal ends at the
    end of the input, the last branch of the loop only moves [i], and the
    loop test fails before [add(s[b:])] is reached.  For the input D [a]
    D the pass returns no line at all, though the remainder is not blank
    and contains no delimiter. *)
Theorem trailing_literal_dropped :
  make_script lone_literal = Some (Ok [])
  /\ strip lone_literal = lone_literal
  /\ PAT_match lone_literal 0 = Some (len lone_literal)
  /\ body lone_literal init = Continue (mkState 0 3 0 [])
  /\ run lone_literal = Some (Ok (mkState 0 3 0 []))
  /\ make_script (str "A;x=" ++ lone_literal) = Some (Ok [str "A"]).
Proof. repeat split; vm_compute; reflexivity. Qed.

(** ** Blank content *)

Lemma output_line_not_blank (l : pystr) :
  output_line l -> l <> [] /\ forallb isspace l = false.
Proof.
  intros (d & _ & content & -> & Hne & Htrim & _).
  destruct content as [|c y]; [congruence|].
  split.
  - intros E. apply app_eq_nil in E as [_ E]. discriminate.
  - rewrite forallb_app. simpl.
    rewrite (Htrim c y eq_refl). simpl. apply andb_false_r.
Qed.

Lemma strip_blank_colon (x : pystr) :
  forallb isspace x = true -> strip (x ++ [COLON]) = [COLON].
Proof.
  intros H. unfold strip.
  replace (lstrip (x ++ [COLON])) with [COLON]; [reflexivity|].
  induction x as [|c x' IH]; [reflexivity|].
  simpl in *. apply andb_true_iff in H as [-> H]. auto.
Qed.

(** Claim C7, as stated: no line for any span that is blank.  The span
    before the opening brace of [{] is empty, and the pass returns the
    line [:] for it. *)
Lemma blank_span_before_brace :
  ~ (forall s st st' e,
       reachable s st -> i st < len s ->
       PAT_match s (i st) = Some e ->
       strip (slice s (b st) (e - 1)) = [] ->
       body s st = Continue st' ->
       lines st' = lines st).
Proof.
  intros H.
  specialize (H (str "{") init (mkState 1 1 1 [str ":"]) 1
                (reach_init _) eq_refl eq_refl eq_refl eq_refl).
  discriminate.
Qed.

(** Claim C7, amended.  Content that is empty or white space only after
    stripping adds no line: [add] leaves the list of lines as it is.
    Hence an iteration whose span is blank appends nothing when the span
    ends with a semicolon, with a closing brace or with the end of the
    input, and nothing but the four synthesized lines when it ends with
    the loop trigger.  Before an opening brace the content is the span
    followed by the colon, and a blank span gives the line [:].  No line
    that the pass returns is empty or blank.  The input [A;;B] gives the
    two lines [A] and [B]. *)
Theorem blank_content_dropped :
  (forall indent ls line, strip line = [] -> add indent ls line = ls)
  /\ (forall indent ls line,
        forallb isspace line = true -> add indent ls line = ls)
  /\ (forall s st e,
        PAT_match s (i st) = Some e ->
        forallb isspace (slice s (b st) (e - 1)) = true ->
        (index s (e - 1) = Ok SEMI ->
         body s st = Continue (mkState e e (indent st) (lines st))) /\
        (index s (e - 1) = Ok RBRACE -> 0 < indent st ->
         body s st = Continue (mkState e e (indent st - 1) (lines st))) /\
        (index s (e - 1) = Ok LBRACE -> slice s (e - 3) e <> str "EL{" ->
         body s st
         = Continue (mkState e e (indent st + 1)
                       (lines st ++ [str_mul INDENT_UNIT (indent st) ++ str ":"]))))
  /\ (forall s st e,
        PAT_match s (i st) = Some e ->
        slice s (e - 3) e = str "EL{" ->
        forallb isspace (slice s (b st) (e - 3)) = true ->
        body s st
        = Continue (mkState e e (indent st + 1)
                      (lines st ++ loop_preamble (indent st))))
  /\ (forall s st,
        PAT_match s (i st) = None ->
        forallb isspace (slice_from s (b st)) = true ->
        body s st = Break (mkState (b st) (i st) (indent st) (lines st)))
  /\ (forall s ls,
        make_script s = Some (Ok ls) ->
        Forall (fun l => l <> [] /\ forallb isspace l = false) ls)
  /\ make_script (str "A;;B") = Some (Ok [str "A"; str "B"]).
Proof.
  assert (Hadd : forall indent ls line, strip line = [] -> add indent ls line = ls).
  { intros indent ls line H. unfold add. rewrite H. reflexivity. }
  split; [exact Hadd|]. split; [|split; [|split; [|split; [|split]]]].
  - intros indent ls line H. apply Hadd, strip_blank, H.
  - intros s st e Hm Hblank. split; [|split].
    + intros Hidx. unfold body.
      rewrite Hm, (not_trigger s (i st) e SEMI Hm Hidx) by discriminate.
      rewrite Hidx. simpl. rewrite Hadd by (apply strip_blank, Hblank).
      reflexivity.
    + intros Hidx Hpos. unfold body.
      rewrite Hm, (not_trigger s (i st) e RBRACE Hm Hidx) by discriminate.
      rewrite Hidx. simpl. rewrite Hadd by (apply strip_blank, Hblank).
      destruct (Z.ltb_spec (indent st - 1) 0); [lia | reflexivity].
    + intros Hidx Htr. unfold body. rewrite Hm.
      destruct (pystr_eqb (slice s (e - 3) e) LOOP_TRIGGER) eqn:E;
        [apply pystr_eqb_eq in E; contradiction|].
      rewrite Hidx. simpl. unfold add.
      rewrite (strip_blank_colon _ Hblank). reflexivity.
  - intros s st e Hm Htr Hblank.
    rewrite (body_loop_macro s st e Hm Htr).
    rewrite emitted_blank by (apply strip_blank, Hblank). reflexivity.
  - intros s st Hm Hblank. unfold body.
    rewrite Hm, Hadd by (apply strip_blank, Hblank). reflexivity.
  - intros s ls H. apply make_script_run in H as (st & Hrun & <-).
    apply run_output_lines in Hrun as [Hl _].
    eapply Forall_impl; [|exact Hl]. apply output_line_not_blank.
  - vm_compute. reflexivity.
Qed.

Lemma blank_content_dropped_witness :
  add 1 [str "A"] (str "   ") = [str "A"]
  /\ body (str "A; ;B") (mkState 2 2 0 [str "A"])
     = Continue (mkState 4 4 0 [str "A"])
  /\ body (str "A{ }") (mkState 2 2 1 [str "A:"])
     = Continue (mkState 4 4 0 [str "A:"])
  /\ body (str "A; {") (mkState 2 2 0 [str "A"])
     = Continue (mkState 4 4 1 [str "A"; str ":"])
  /\ body (str "A; EL{") (mkState 2 2 0 [str "A"])
     = Continue (mkState 6 6 1 ([str "A"] ++ loop_preamble 0))
  /\ body (str "A;  ") (mkState 2 2 0 [str "A"])
     = Break (mkState 2 2 0 [str "A"])
  /\ Forall (fun l => l <> [] /\ forallb isspace l = false)
       [str "A:"; str "    B"].
Proof.
  destruct blank_content_dropped as (_ & H2 & H3 & H4 & H5 & H6 & _).
  split; [apply H2; reflexivity|].
  split; [apply (H3 (str "A; ;B") (mkState 2 2 0 [str "A"]) 4); reflexivity|].
  split; [apply (H3 (str "A{ }") (mkState 2 2 1 [str "A:"]) 4); reflexivity|].
  split; [apply (H3 (str "A; {") (mkState 2 2 0 [str "A"]) 4);
          (reflexivity || (vm_compute; discriminate))|].
  split; [apply (H4 (str "A; EL{") (mkState 2 2 0 [str "A"]) 6); reflexivity|].
  split; [apply (H5 (str "A;  ") (mkState 2 2 0 [str "A"])); reflexivity|].
  apply (H6 (str "A{B}")). reflexivity.
Defined.

(** ** Termination *)

(** Claim C8.  The pass terminates on every input.  Every match of the
    scanner ends after the position where it starts and inside the text,
    so that each iteration that goes on moves [i] forward; the loop runs
    at most [len s] such iterations, the fuel of [run] is never used up,
    and more fuel does not change the result.  The pass returns its
    lines or raises the [SyntaxError] of the unbalanced closing brace,
    and nothing else. *)
Theorem make_script_terminates :
  (forall s i e, 0 <= i <= len s -> PAT_match s i = Some e -> i < e <= len s)
  /\ (forall s st st',
        reachable s st -> i st < len s -> body s st = Continue st' ->
        i st < i st' <= len s)
  /\ (forall s,
        exists r,
          run s = Some r /\
          forall fuel, (List.length s < fuel)%nat -> loop fuel s init = Some r)
  /\ (forall s,
        (exists ls, make_script s = Some (Ok ls)) \/
        (exists b, make_script s
                   = Some (Raise (SyntaxError (str "Invalid Syntax: "
                                               ++ slice_from s b))))).
Proof.
  split; [exact PAT_match_bounds|]. split; [|split].
  - intros s st st' Hreach _ Hb.
    destruct (body_continue s st st' (reachable_inv s st Hreach) Hb)
      as [(_ & Hi & _) Hlt].
    lia.
  - intros s. destruct (run_terminates s) as [r Hr]. exists r.
    split; [assumption|]. intros fuel Hfuel.
    apply loop_fuel_mono with (fuel := S (List.length s)); [lia | exact Hr].
  - intros s. destruct (run_terminates s) as [[st|x] Hr].
    + left. exists (lines st). unfold make_script. rewrite Hr. reflexivity.
    + right. pose proof Hr as Hx.
      apply run_stops in Hx as (st & Hreach & Hstop).
      destruct Hstop as [[_ E] | [[_ (st' & _ & E)] | [_ (y & Hb & [= <-])]]];
        try discriminate.
      apply body_abort in Hb; [|apply reachable_inv; assumption].
      destruct Hb as (e & _ & _ & _ & ->).
      exists (b st). unfold make_script. rewrite Hr. reflexivity.
Qed.

Lemma make_script_terminates_witness :
  0 < 2 <= len (str "A{B}")
  /\ 2 < 4 <= len (str "A{B}")
  /\ exists r, run (str "A{B}") = Some r /\ loop 7 (str "A{B}") init = Some r.
Proof.
  destruct make_script_terminates as (H1 & H2 & H3 & _).
  split; [apply (H1 (str "A{B}") 0 2); [vm_compute; intuition discriminate
                                       | reflexivity]|].
  split.
  - apply (H2 (str "A{B}") (mkState 2 2 1 [str "A:"])
              (mkState 4 4 0 [str "A:"; str "    B"])); [|reflexivity|reflexivity].
    apply reach_step with init; [apply reach_init | reflexivity | reflexivity].
  - destruct (H3 (str "A{B}")) as (r & Hr & Hfuel).
    exists r. split; [assumption|]. apply Hfuel. simpl. lia.
Defined.

(** ** Indentation *)



(** ** The trigger after any text *)

Lemma slice_app_mid (x y z : pystr) :
  slice (x ++ y ++ z) (len x) (len x + len y) = y.
Proof.
  unfold slice.
  rewrite !bound_id by (rewrite !len_app; unfold len; lia).
  replace (Z.to_nat (len x)) with (List.length x) by (unfold len; lia).
  replace (Z.to_nat (len x + len y - len x)) with (List.length y)
    by (unfold len; lia).
  rewrite skipn_app, skipn_all, Nat.sub_diag. simpl.
  rewrite firstn_app, firstn_all, Nat.sub_diag. simpl. apply app_nil_r.
Qed.

Lemma PAT_len_plain_app (pre t : pystr) :
  forallb is_plain pre = true ->
  PAT_len (pre ++ t) = option_map (fun n => (List.length pre + n)%nat) (PAT_len t).
Proof.
  induction pre as [|c pre' IH]; simpl; intros H.
  - destruct (PAT_len t); reflexivity.
  - apply andb_true_iff in H as [Hc H]. rewrite Hc, (IH H).
    destruct (PAT_len t); reflexivity.
Qed.

(** A match that ends in [EL] before an opening brace is taken for the
    loop macro, whatever precedes the two letters. *)
Lemma body_trigger_suffix (s0 pre rest : pystr) (st : state) :
  i st = len s0 -> forallb is_plain pre = true ->
  let s := s0 ++ pre ++ LOOP_TRIGGER ++ rest in
  let e := len s0 + len pre + 3 in
  body s st
  = Continue (mkState e e (indent st + 1)
                (lines st ++ emitted (indent st) (slice s (b st) (e - 3))
                          ++ loop_preamble (indent st))).
Proof.
  intros Hi Hpre s e.
  assert (Hm : PAT_match s (i st) = Some e).
  { rewrite PAT_match_len
      by (rewrite Hi; unfold s; rewrite len_app; unfold len; lia).
    rewrite Hi. replace (Z.to_nat (len s0)) with (List.length s0)
      by (unfold len; lia).
    unfold s. rewrite skipn_app, skipn_all, Nat.sub_diag. simpl skipn.
    rewrite app_nil_l, PAT_len_plain_app by assumption. simpl.
    f_equal. unfold e, len. lia. }
  assert (Htr : slice s (e - 3) e = LOOP_TRIGGER).
  { unfold s, e. rewrite (app_assoc s0 pre).
    replace (len s0 + len pre + 3 - 3) with (len (s0 ++ pre))
      by (rewrite len_app; lia).
    replace (len s0 + len pre + 3) with (len (s0 ++ pre) + len LOOP_TRIGGER)
      by (rewrite len_app; reflexivity).
    apply slice_app_mid. }
  exact (body_loop_macro s st e Hm Htr).
Qed.

Lemma slice_statement (s0 pre rest : pystr) :
  slice (s0 ++ pre ++ rest) (len s0) (len s0 + len pre + 3 - 3) = pre.
Proof.
  replace (len s0 + len pre + 3 - 3) with (len s0 + len pre) by lia.
  apply slice_app_mid.
Qed.

(** Claim C10.  The test for the loop macro looks at the last three
    characters of the match only.  A match that ends in the letters [EL]
    just before an opening brace outside quotes is expanded as the loop
    macro whatever the text [pre] before the two letters is, also when
    [pre] and [EL] form one identifier: the iteration appends the span
    without the two letters, stripped, then the header and the three
    derivations, and no line with a colon for the statement; when the
    span starts where the match starts, it is [pre] that is appended.
    The input [LEVEL{] gives [LEV] followed by the four synthesized
    lines, and not the line [LEVEL:]. *)
Theorem trigger_inside_identifier :
  (forall s0 pre rest st,
     i st = len s0 -> forallb is_plain pre = true ->
     let s := s0 ++ pre ++ str "EL{" ++ rest in
     let e := len s0 + len pre + 3 in
     body s st
     = Continue (mkState e e (indent st + 1)
                   (lines st ++ emitted (indent st) (slice s (b st) (e - 3))
                             ++ loop_preamble (indent st)))
     /\ (b st = len s0 -> slice s (b st) (e - 3) = pre))
  /\ (forall pre,
        forallb is_plain pre = true ->
        make_script (pre ++ str "EL{")
        = Some (Ok (emitted 0 pre ++ loop_preamble 0)))
  /\ make_script (str "LEVEL{")
     = Some (Ok [ str "LEV";
                  str "for (L,S) in enumerate(fileinput.input()):";
                  str "    s = S.strip()";
                  str "    F = s.split(DELIM)";
                  str "    I = [ toint(v) for v in F ]" ])
  /\ make_script (str "LEVEL{") <> Some (Ok [str "LEVEL:"])
  /\ make_script (str "LEVAL{") = Some (Ok [str "LEVAL:"]).
Proof.
  split; [|split; [|split; [|split]]].
  - intros s0 pre rest st Hi Hpre s e. split.
    + exact (body_trigger_suffix s0 pre rest st Hi Hpre).
    + intros ->. apply slice_statement.
  - intros pre Hpre.
    pose proof (body_trigger_suffix [] pre [] init eq_refl Hpre) as Hb.
    cbv zeta in Hb. change (b init) with (len []) in Hb.
    rewrite slice_statement in Hb. rewrite app_nil_l, app_nil_r in Hb.
    remember (mkState (len [] + len pre + 3) (len [] + len pre + 3)
                (indent init + 1)
                (lines init ++ emitted (indent init) pre
                            ++ loop_preamble (indent init))) as st1 eqn:Est1.
    apply make_script_run. exists st1. split; [|subst st1; reflexivity].
    apply run_stops. exists st1. split.
    + apply reach_step with init; [apply reach_init | | exact Hb].
      unfold init. simpl. rewrite len_app. unfold len. simpl. lia.
    + left. split; [|reflexivity].
      subst st1. simpl. rewrite len_app. change (len []) with 0.
      change (len (str "EL{")) with 3. lia.
  - vm_compute. reflexivity.
  - vm_compute. discriminate.
  - vm_compute. reflexivity.
Qed.

Lemma trigger_inside_identifier_witness :
  body (str "x;LEVEL{y}") (mkState 2 2 0 [str "x"])
  = Continue (mkState 8 8 1
      [ str "x"; str "LEV";
        str "for (L,S) in enumerate(fileinput.input()):";
        str "    s = S.strip()";
        str "    F = s.split(DELIM)";
        str "    I = [ toint(v) for v in F ]" ])
  /\ make_script (str "MODEL{")
     = Some (Ok [ str "MOD";
                  str "for (L,S) in enumerate(fileinput.input()):";
                  str "    s = S.strip()";
                  str "    F = s.split(DELIM)";
                  str "    I = [ toint(v) for v in F ]" ]).
Proof.
  destruct trigger_inside_identifier as (H1 & H2 & _).
  split.
  - destruct (H1 (str "x;") (str "LEV") (str "y}") (mkState 2 2 0 [str "x"])
                 eq_refl eq_refl) as [H _].
    exact H.
  - apply (H2 (str "MOD")). reflexivity.
Defined.

(** * Further properties *)

(** ** The text that the scanner matches *)

Lemma quoted_matched (q : char) :
  forall t n, quoted q t = Some n -> exists w, firstn n t = w ++ [q].
Proof.
  intros t. remember (List.length t) as k eqn:Hk.
  revert t Hk. induction k as [k IH] using lt_wf_ind. intros t Hk n H.
  destruct t as [|c t']; [discriminate|]. simpl in Hk.
  assert (Hsingle :
    (if (c =? q)%N then Some 1%nat else option_map S (quoted q t')) = Some n ->
    exists w, firstn n (c :: t') = w ++ [q]).
  { destruct (N.eqb_spec c q) as [->|_].
    - intros [= <-]. exists []. reflexivity.
    - destruct (quoted q t') as [m|] eqn:E; [|discriminate].
      intros [= <-]. apply (IH (List.length t')) in E as [w Hw]; [|lia|reflexivity].
      exists (c :: w). simpl. rewrite Hw. reflexivity. }
  cbn [quoted] in H.
  destruct (BACKSLASH =? c)%N; [|exact (Hsingle H)].
  destruct t' as [|d t'']; [exact (Hsingle H)|].
  destruct (dot d); [|exact (Hsingle H)].
  destruct (quoted q t'') as [m|] eqn:E; [|exact (Hsingle H)].
  injection H as <-.
  apply (IH (List.length t'')) in E as [w Hw]; [|simpl in *; lia|reflexivity].
  exists (c :: d :: w). simpl. rewrite Hw. reflexivity.
Qed.

Lemma quoted_found (q : char) :
  forall t, In q t -> exists n, quoted q t = Some n.
Proof.
  induction t as [|c t' IH]; intros Hin; [contradiction|].
  assert (Hsingle : exists n,
    (if (c =? q)%N then Some 1%nat else option_map S (quoted q t')) = Some n).
  { destruct (N.eqb_spec c q) as [->|Hc]; [eauto|].
    destruct Hin as [E|Hin]; [congruence|].
    destruct (IH Hin) as [m ->]. simpl. eauto. }
  cbn [quoted].
  destruct (BACKSLASH =? c)%N; [|exact Hsingle].
  destruct t' as [|d t'']; [exact Hsingle|].
  destruct (dot d); [|exact Hsingle].
  destruct (quoted q t'') as [m|]; [eauto | exact Hsingle].
Qed.

(** A literal is left open exactly when its quote does not occur again,
    escaped or not. *)
Lemma quoted_none (q : char) (t : pystr) : quoted q t = None <-> ~ In q t.
Proof.
  split.
  - intros H Hin. destruct (quoted_found q t Hin) as [n E]. congruence.
  - intros Hnot. destruct (quoted q t) as [n|] eqn:E; [|reflexivity].
    exfalso. apply Hnot.
    destruct (quoted_matched q t n E) as [w Hw].
    rewrite <- (firstn_skipn n t), Hw.
    apply in_or_app. left. apply in_or_app. right. left. reflexivity.
Qed.

Lemma not_plain_cases (c : char) :
  is_plain c = false -> is_delim c = false -> c = DQUOTE \/ c = SQUOTE.
Proof.
  unfold is_plain. intros H Hd. rewrite Hd, orb_false_r in H.
  apply negb_false_iff, orb_true_iff in H.
  destruct H as [H|H]; apply N.eqb_eq in H; auto.
Qed.

Lemma quote_not_plain (q : char) :
  q = DQUOTE \/ q = SQUOTE -> is_plain q = false /\ is_delim q = false.
Proof. intros [->| ->]; split; reflexivity. Qed.

Lemma delim_not_plain (c : char) : is_delim c = true -> is_plain c = false.
Proof. unfold is_plain. intros ->. rewrite orb_true_r. reflexivity. Qed.

Lemma PAT_len_matched :
  forall t n,
    PAT_len t = Some n ->
    exists pre c tail,
      firstn n t = pre ++ c :: tail /\ forallb is_plain pre = true /\
      ((is_delim c = true /\ tail = []) \/
       ((c = DQUOTE \/ c = SQUOTE) /\ exists w, tail = w ++ [c])).
Proof.
  induction t as [|c t' IH]; intros n H; [discriminate|].
  simpl in H. destruct (is_plain c) eqn:Hp.
  - destruct (PAT_len t') as [m|]; [|discriminate]. injection H as <-.
    destruct (IH m eq_refl) as (pre & c' & tail & E & Hpre & Hc).
    exists (c :: pre), c', tail. simpl. rewrite E, Hp, Hpre. auto.
  - destruct (is_delim c) eqn:Hd.
    + injection H as <-. exists [], c, []. simpl. auto.
    + destruct (quoted c t') as [m|] eqn:E; [|discriminate]. injection H as <-.
      destruct (quoted_matched c t' m E) as [w Hw].
      exists [], c, (w ++ [c]). simpl. rewrite Hw.
      split; [reflexivity|]. split; [reflexivity|]. right.
      split; [apply not_plain_cases; assumption | eauto].
Qed.

Lemma PAT_len_plain (t : pystr) : forallb is_plain t = true -> PAT_len t = None.
Proof.
  induction t as [|c t' IH]; simpl; [reflexivity|].
  intros H. apply andb_true_iff in H as [-> H]. rewrite (IH H). reflexivity.
Qed.

(** A text is plain, or it has a first character that is not. *)
Lemma first_special (t : pystr) :
  forallb is_plain t = true \/
  exists pre c rest,
    t = pre ++ c :: rest /\ forallb is_plain pre = true /\ is_plain c = false.
Proof.
  induction t as [|c t' IH]; [left; reflexivity|].
  destruct (is_plain c) eqn:Hp.
  - destruct IH as [H | (pre & c' & rest & -> & Hpre & Hc)].
    + left. simpl. rewrite Hp. assumption.
    + right. exists (c :: pre), c', rest. simpl. rewrite Hp. auto.
  - right. exists [], c, t'. auto.
Qed.

Lemma PAT_len_special (pre : pystr) (c : char) (rest : pystr) :
  forallb is_plain pre = true -> is_plain c = false ->
  PAT_len (pre ++ c :: rest)
  = if is_delim c then Some (List.length pre + 1)%nat
    else option_map (fun m => (List.length pre + S m)%nat) (quoted c rest).
Proof.
  intros Hpre Hc. rewrite PAT_len_plain_app by assumption.
  simpl. rewrite Hc. destruct (is_delim c); [reflexivity|].
  destruct (quoted c rest); reflexivity.
Qed.

Lemma slice_from_skipn (s : pystr) (i : Z) :
  0 <= i <= len s -> slice_from s i = skipn (Z.to_nat i) s.
Proof. intros H. unfold slice_from. rewrite bound_id by assumption. reflexivity. Qed.

Lemma slice_firstn (s : pystr) (i : Z) (n : nat) :
  0 <= i -> i + Z.of_nat n <= len s ->
  slice s i (i + Z.of_nat n) = firstn n (skipn (Z.to_nat i) s).
Proof.
  intros Hi Hn. unfold slice. rewrite !bound_id by lia.
  f_equal. lia.
Qed.

(** X1.  The text of a match is a run of plain characters followed by
    one delimiter, or by one literal that opens and closes with the same
    quote; and when the first character after [i] that is not plain is a
    delimiter, the match ends right after it. *)
Theorem scanner_match_shape :
  (forall s i e,
     0 <= i <= len s -> PAT_match s i = Some e ->
     exists pre c tail,
       slice s i e = pre ++ c :: tail /\ forallb is_plain pre = true /\
       ((is_delim c = true /\ tail = []) \/
        ((c = DQUOTE \/ c = SQUOTE) /\ exists w, tail = w ++ [c])))
  /\ (forall s i pre c rest,
        0 <= i <= len s ->
        slice_from s i = pre ++ c :: rest ->
        forallb is_plain pre = true -> is_delim c = true ->
        PAT_match s i = Some (i + len pre + 1)).
Proof.
  split.
  - intros s i e Hi H. rewrite PAT_match_len in H by assumption.
    destruct (PAT_len (skipn (Z.to_nat i) s)) as [n|] eqn:E; [|discriminate].
    injection H as <-.
    pose proof (PAT_len_bounds _ _ E) as Hn. rewrite length_skipn in Hn.
    rewrite slice_firstn by (unfold len in *; lia).
    apply PAT_len_matched, E.
  - intros s i pre c rest Hi Ht Hpre Hc.
    rewrite PAT_match_len by assumption.
    rewrite <- slice_from_skipn, Ht by assumption.
    rewrite PAT_len_special by auto using delim_not_plain.
    rewrite Hc. simpl. f_equal. unfold len. lia.
Qed.

Lemma scanner_match_shape_witness :
  (exists pre c tail,
     slice (str "ab;cd") 0 3 = pre ++ c :: tail /\ forallb is_plain pre = true /\
     ((is_delim c = true /\ tail = []) \/
      ((c = DQUOTE \/ c = SQUOTE) /\ exists w, tail = w ++ [c])))
  /\ PAT_match (str "ab;cd{e") 3 = Some (3 + len (str "cd") + 1).
Proof.
  destruct scanner_match_shape as [H1 H2]. split.
  - apply (H1 (str "ab;cd") 0 3); [vm_compute; intuition discriminate | reflexivity].
  - apply (H2 (str "ab;cd{e") 3 (str "cd") LBRACE (str "e"));
      [vm_compute; intuition discriminate | reflexivity | reflexivity | reflexivity].
Defined.

(** X2.  The scanner finds no match from [i] exactly when the rest of
    the text is plain, or when its first character that is not plain is a
    quote that does not occur again.  A quote that occurs again closes
    the literal even when a backslash stands before it. *)
Theorem scanner_no_match :
  forall s i,
    0 <= i <= len s ->
    (PAT_match s i = None <->
     forallb is_plain (slice_from s i) = true \/
     exists pre q rest,
       slice_from s i = pre ++ q :: rest /\ forallb is_plain pre = true /\
       (q = DQUOTE \/ q = SQUOTE) /\ ~ In q rest).
Proof.
  intros s i Hi. rewrite PAT_match_len by assumption.
  rewrite slice_from_skipn by assumption.
  set (t := skipn (Z.to_nat i) s).
  assert (Hnone : forall o : option nat,
            option_map (fun n => i + Z.of_nat n) o = None <-> o = None).
  { intros [n|]; simpl; split; congruence. }
  rewrite Hnone. split.
  - intros H. destruct (first_special t) as [Hp | (pre & c & rest & E & Hpre & Hc)];
      [auto|].
    right. rewrite E, PAT_len_special in H by assumption.
    destruct (is_delim c) eqn:Hd; [discriminate|].
    exists pre, c, rest. repeat split; auto using not_plain_cases.
    apply quoted_none. destruct (quoted c rest); [discriminate | reflexivity].
  - intros [Hp | (pre & q & rest & E & Hpre & Hq & Hnot)].
    + apply PAT_len_plain, Hp.
    + destruct (quote_not_plain q Hq) as [Hc Hd].
      rewrite E, PAT_len_special, Hd by assumption.
      apply quoted_none in Hnot. rewrite Hnot. reflexivity.
Qed.

Lemma scanner_no_match_witness :
  PAT_match (str "a;b 'c d") 2 = None.
Proof.
  apply (scanner_no_match (str "a;b 'c d") 2);
    [vm_compute; intuition discriminate|].
  right. exists (str "b "), SQUOTE, (str "c d").
  repeat split; auto.
  vm_compute. intuition discriminate.
Defined.

(** ** Escaped quotes *)

Lemma quoted_literal_text (q : char) (w t : pystr) :
  literal_text q w = true ->
  quoted q (w ++ t) = option_map (fun m => (List.length w + m)%nat) (quoted q t).
Proof.
  induction w as [|c w' IH]; intros H.
  - simpl. destruct (quoted q t); reflexivity.
  - simpl in H. apply andb_true_iff in H as [Hc H].
    apply andb_true_iff in Hc as [Hq Hb].
    apply negb_true_iff in Hq, Hb. rewrite N.eqb_sym in Hb.
    change ((c :: w') ++ t) with (c :: (w' ++ t)). cbn [quoted].
    rewrite Hb, Hq, (IH H). destruct (quoted q t); reflexivity.
Qed.

Lemma literal_text_no_quote (q : char) (w : pystr) :
  literal_text q w = true -> ~ In q w.
Proof.
  intros H Hin. unfold literal_text in H. rewrite forallb_forall in H.
  specialize (H q Hin). rewrite N.eqb_refl in H. discriminate.
Qed.

Lemma PAT_match_start (t : pystr) :
  PAT_match t 0 = option_map Z.of_nat (PAT_len t).
Proof.
  rewrite PAT_match_len by (pose proof (len_nonneg t); lia).
  simpl. destruct (PAT_len t); reflexivity.
Qed.

(** X3.  Inside a literal, a quote after a backslash does not end the
    literal when the same quote occurs later: the match runs on to the
    next quote.  When no quote follows, the engine backtracks and the
    literal ends at the quote after the backslash. *)
Theorem escaped_quote :
  forall q w1 w2,
    q = DQUOTE \/ q = SQUOTE ->
    literal_text q w1 = true -> literal_text q w2 = true ->
    (forall rest,
       PAT_match (q :: w1 ++ [BACKSLASH; q] ++ w2 ++ q :: rest) 0
       = Some (len w1 + len w2 + 4))
    /\ PAT_match (q :: w1 ++ [BACKSLASH; q] ++ w2) 0 = Some (len w1 + 3).
Proof.
  intros q w1 w2 Hq H1 H2.
  destruct (quote_not_plain q Hq) as [Hp Hd].
  assert (Hbs : (BACKSLASH =? q)%N = false) by (destruct Hq as [->| ->]; reflexivity).
  assert (Hdot : dot q = true) by (destruct Hq as [->| ->]; reflexivity).
  assert (Hclose : forall t, quoted q (q :: t) = Some 1%nat).
  { intros t. cbn [quoted]. rewrite Hbs, N.eqb_refl. reflexivity. }
  split.
  - intros rest. rewrite PAT_match_start. cbn [PAT_len]. rewrite Hp, Hd.
    rewrite quoted_literal_text by assumption.
    change ([BACKSLASH; q] ++ w2 ++ q :: rest)
      with (BACKSLASH :: q :: (w2 ++ q :: rest)).
    cbn [quoted]. rewrite N.eqb_refl, Hdot.
    rewrite quoted_literal_text, Hclose by assumption.
    simpl. f_equal. unfold len. lia.
  - rewrite PAT_match_start. cbn [PAT_len]. rewrite Hp, Hd.
    rewrite quoted_literal_text by assumption.
    change ([BACKSLASH; q] ++ w2) with (BACKSLASH :: q :: w2).
    cbn [quoted]. rewrite N.eqb_refl, Hdot.
    replace (quoted q w2) with (@None nat)
      by (symmetry; apply quoted_none, literal_text_no_quote; assumption).
    rewrite Hbs, N.eqb_refl. simpl. f_equal. unfold len. lia.
Qed.

Lemma escaped_quote_witness :
  (forall rest,
     PAT_match (DQUOTE :: str "a" ++ [BACKSLASH; DQUOTE] ++ str "b;"
                  ++ DQUOTE :: rest) 0
     = Some (len (str "a") + len (str "b;") + 4))
  /\ PAT_match (DQUOTE :: str "a" ++ [BACKSLASH; DQUOTE] ++ str "b;") 0
     = Some (len (str "a") + 3).
Proof.
  apply (escaped_quote DQUOTE (str "a") (str "b;")); [left| |]; reflexivity.
Defined.

(** ** The line of a block opening *)





(** ** Running the loop from a position of the text *)

Lemma PAT_match_app (s0 rest : pystr) :
  PAT_match (s0 ++ rest) (len s0)
  = option_map (fun n => len s0 + Z.of_nat n) (PAT_len rest).
Proof.
  rewrite PAT_match_len
    by (rewrite len_app; pose proof (len_nonneg s0); pose proof (len_nonneg rest); lia).
  replace (Z.to_nat (len s0)) with (List.length s0) by (unfold len; lia).
  rewrite skipn_app, skipn_all, Nat.sub_diag. reflexivity.
Qed.

Lemma slice_from_app (s0 rest : pystr) : slice_from (s0 ++ rest) (len s0) = rest.
Proof.
  unfold slice_from.
  rewrite bound_id
    by (rewrite len_app; pose proof (len_nonneg s0); pose proof (len_nonneg rest); lia).
  replace (Z.to_nat (len s0)) with (List.length s0) by (unfold len; lia).
  rewrite skipn_app, skipn_all, Nat.sub_diag. reflexivity.
Qed.

Lemma index_app_mid (s0 pre : pystr) (c : char) (rest : pystr) :
  index (s0 ++ pre ++ c :: rest) (len s0 + len pre) = Ok c.
Proof.
  unfold index. pose proof (len_nonneg s0). pose proof (len_nonneg pre).
  destruct (Z.ltb_spec (len s0 + len pre) 0); [lia|].
  destruct (Z.leb_spec 0 (len s0 + len pre)); [|lia].
  destruct (Z.ltb_spec (len s0 + len pre) (len (s0 ++ pre ++ c :: rest))) as [_|H'];
    [|rewrite !len_app in H'; unfold len in H'; simpl in H'; lia].
  simpl. rewrite app_assoc.
  replace (Z.to_nat (len s0 + len pre)) with (List.length (s0 ++ pre) + 0)%nat
    by (rewrite length_app; unfold len; lia).
  rewrite nth_error_app2 by lia.
  replace (List.length (s0 ++ pre) + 0 - List.length (s0 ++ pre))%nat with O by lia.
  reflexivity.
Qed.

(** The match from the end of [s0] when the first special character of
    the rest is the delimiter [c]. *)
Lemma match_delim (s0 pre : pystr) (c : char) (rest : pystr) :
  forallb is_plain pre = true -> is_delim c = true ->
  let s := s0 ++ pre ++ c :: rest in
  let e := len s0 + len pre + 1 in
  PAT_match s (len s0) = Some e /\ index s (e - 1) = Ok c /\
  slice s (len s0) (e - 1) = pre.
Proof.
  intros Hpre Hc s e. split; [|split].
  - unfold s. rewrite PAT_match_app, PAT_len_special
      by auto using delim_not_plain.
    rewrite Hc. simpl. f_equal. unfold e, len. lia.
  - unfold s, e. replace (len s0 + len pre + 1 - 1) with (len s0 + len pre) by lia.
    apply index_app_mid.
  - unfold s, e. replace (len s0 + len pre + 1 - 1) with (len s0 + len pre) by lia.
    apply (slice_app_mid s0 pre (c :: rest)).
Qed.

Lemma body_semi (s : pystr) (st : state) (e : Z) :
  PAT_match s (i st) = Some e -> index s (e - 1) = Ok SEMI ->
  body s st
  = Continue (mkState e e (indent st)
                (lines st ++ emitted (indent st) (slice s (b st) (e - 1)))).
Proof.
  intros Hm Hidx. unfold body.
  rewrite Hm, (not_trigger s (i st) e SEMI Hm Hidx) by discriminate.
  rewrite Hidx. simpl. rewrite add_emitted. reflexivity.
Qed.

Lemma split_on_cons (c : char) (x : pystr) :
  exists p ps, split_on c x = p :: ps.
Proof.
  induction x as [|d x' (p & ps & IH)]; simpl; [eauto|].
  rewrite IH. destruct (d =? c)%N; eauto.
Qed.

Lemma brace_free_split (t : pystr) :
  brace_free t = true ->
  (forallb is_plain t = true /\ split_on SEMI t = [t]) \/
  exists pre rest,
    t = pre ++ SEMI :: rest /\ forallb is_plain pre = true /\
    brace_free rest = true /\ split_on SEMI t = pre :: split_on SEMI rest.
Proof.
  induction t as [|c t' IH]; intros H; [left; split; reflexivity|].
  simpl in H. apply andb_true_iff in H as [Hc H]. specialize (IH H).
  destruct (N.eqb_spec c SEMI) as [->|Hne].
  - right. exists [], t'. repeat split; auto.
    simpl. destruct (split_on_cons SEMI t') as (p & ps & ->). reflexivity.
  - assert (Hp : is_plain c = true).
    { destruct (is_plain c); [reflexivity | simpl in Hc; discriminate]. }
    assert (Hs : (c =? SEMI)%N = false) by (apply N.eqb_neq; assumption).
    destruct IH as [[Hpl Hsp] | (pre & rest & -> & Hpre & Hbf & Hsp)].
    + left. simpl. rewrite Hp, Hpl, Hsp, Hs. auto.
    + right. exists (c :: pre), rest. simpl. rewrite Hp, Hpre, Hsp, Hs. auto.
Qed.

Lemma loop_brace_free (k : nat) :
  forall rest s0 st fuel,
    (List.length rest <= k)%nat -> brace_free rest = true ->
    b st = len s0 -> i st = len s0 -> (List.length rest < fuel)%nat ->
    exists st',
      loop fuel (s0 ++ rest) st = Some (Ok st') /\
      lines st' = lines st ++ flat_map (emitted (indent st)) (split_on SEMI rest) /\
      indent st' = indent st.
Proof.
  induction k as [|k IH]; intros rest s0 st fuel Hk Hbf Hb Hi Hfuel.
  - destruct rest; [|simpl in Hk; lia].
    destruct fuel as [|fuel]; [lia|]. exists st. simpl.
    rewrite !app_nil_r. rewrite Hi. rewrite Z.ltb_irrefl. auto.
  - destruct fuel as [|fuel]; [lia|].
    destruct rest as [|c0 rest0] eqn:Erest.
    { exists st. simpl.
      rewrite !app_nil_r. rewrite Hi. rewrite Z.ltb_irrefl. auto. }
    rewrite <- Erest in *. assert (Hpos : (0 < List.length rest)%nat)
      by (rewrite Erest; simpl; lia). clear Erest c0 rest0.
    assert (Hlt : (i st <? len (s0 ++ rest)) = true).
    { apply Z.ltb_lt. rewrite Hi, len_app. unfold len. lia. }
    cbn [loop]. rewrite Hlt.
    destruct (brace_free_split rest Hbf)
      as [[Hpl Hsp] | (pre & rest' & E & Hpre & Hbf' & Hsp)].
    + unfold body. rewrite Hi, PAT_match_app, (PAT_len_plain rest Hpl). simpl.
      eexists. split; [reflexivity|]. simpl.
      rewrite add_emitted, Hb, slice_from_app, Hsp. simpl.
      rewrite app_nil_r. auto.
    + subst rest.
      destruct (match_delim s0 pre SEMI rest' Hpre eq_refl) as (Hm & Hidx & Hsl).
      cbv zeta in Hm, Hidx, Hsl. rewrite <- Hi in Hm at 1.
      rewrite (body_semi _ st _ Hm Hidx), Hb, Hsl.
      rewrite length_app in Hk, Hfuel. simpl in Hk, Hfuel.
      set (st1 := mkState (len s0 + len pre + 1) (len s0 + len pre + 1)
                    (indent st) (lines st ++ emitted (indent st) pre)).
      assert (Hst1 : len (s0 ++ pre ++ [SEMI]) = len s0 + len pre + 1)
        by (rewrite !len_app; change (len [SEMI]) with 1; lia).
      destruct (IH rest' (s0 ++ pre ++ [SEMI]) st1 fuel
                  ltac:(lia) Hbf' (eq_sym Hst1) (eq_sym Hst1) ltac:(lia))
        as (st' & Hl & Hls & Hd).
      exists st'. rewrite <- !app_assoc in Hl. simpl in Hl.
      split; [exact Hl|]. split; [|exact Hd].
      rewrite Hls, Hsp. unfold st1. simpl. rewrite <- app_assoc. reflexivity.
Qed.

Lemma flat_map_emitted (xs : list pystr) :
  flat_map (emitted 0) xs = List.filter non_empty (List.map strip xs).
Proof.
  induction xs as [|x xs IH]; [reflexivity|].
  simpl. rewrite IH. unfold emitted, add.
  destruct (strip x); reflexivity.
Qed.

(** X5.  A script without quotes and braces is cut at its semicolons:
    the pass returns the pieces of [s.split(';')], stripped, in their
    order and without the blank ones, all at depth 0. *)
Theorem semicolon_script :
  forall s,
    brace_free s = true ->
    make_script s
    = Some (Ok (List.filter non_empty (List.map strip (split_on SEMI s)))).
Proof.
  intros s H.
  destruct (loop_brace_free (List.length s) s [] init (S (List.length s)))
    as (st' & Hl & Hls & _); auto.
  unfold make_script, run. simpl app in Hl. rewrite Hl, Hls.
  simpl. rewrite flat_map_emitted. reflexivity.
Qed.

Lemma semicolon_script_witness :
  make_script (str " a = 1 ;; print(a) ; ")
  = Some (Ok [str "a = 1"; str "print(a)"]).
Proof.
  apply (semicolon_script (str " a = 1 ;; print(a) ; ")). reflexivity.
Defined.

(** ** Braces and depth *)

Lemma depth_after_plain (pre : pystr) :
  forallb is_plain pre = true -> forall d, depth_after d pre = Some d.
Proof.
  induction pre as [|c pre' IH]; intros H d; [reflexivity|].
  simpl in H. apply andb_true_iff in H as [Hc H]. simpl.
  assert (Hd : is_delim c = false).
  { destruct (is_delim c) eqn:E; [|reflexivity].
    apply delim_not_plain in E. congruence. }
  unfold is_delim in Hd. apply orb_false_iff in Hd as [Hd _].
  apply orb_false_iff in Hd as [-> ->]. auto.
Qed.

Lemma depth_after_app (x y : pystr) :
  forall d,
    depth_after d (x ++ y)
    = match depth_after d x with
      | Some d' => depth_after d' y
      | None => None
      end.
Proof.
  induction x as [|c x' IH]; intros d; [reflexivity|].
  simpl. destruct (c =? LBRACE)%N; [apply IH|].
  destruct (c =? RBRACE)%N; [|apply IH].
  destruct (d - 1 <? 0); [reflexivity | apply IH].
Qed.

Lemma depth_after_special (pre : pystr) (c : char) (rest : pystr) :
  forallb is_plain pre = true ->
  forall d,
    depth_after d (pre ++ c :: rest)
    = match depth_after d [c] with
      | Some d' => depth_after d' rest
      | None => None
      end.
Proof.
  intros Hpre d. rewrite depth_after_app, (depth_after_plain pre Hpre).
  apply (depth_after_app [c] rest).
Qed.

(** The depth after an iteration that ends with the delimiter [c]. *)
Lemma body_delim_depth (s : pystr) (st : state) (e : Z) (c : char) :
  PAT_match s (i st) = Some e -> index s (e - 1) = Ok c -> is_delim c = true ->
  match depth_after (indent st) [c] with
  | Some d => exists b' l, body s st = Continue (mkState b' e d l)
  | None => exists msg, body s st = Abort (SyntaxError msg)
  end.
Proof.
  intros Hm Hidx Hc. unfold body. rewrite Hm.
  destruct (pystr_eqb (slice s (e - 3) e) LOOP_TRIGGER) eqn:E.
  - apply pystr_eqb_eq, trigger_last_char in E;
      [|exact (PAT_match_range s (i st) e Hm)].
    rewrite E in Hidx. injection Hidx as <-. simpl. eauto.
  - rewrite Hidx. unfold is_delim in Hc. simpl.
    destruct (c =? LBRACE)%N; [eauto|].
    destruct (c =? RBRACE)%N.
    + destruct (indent st - 1 <? 0); eauto.
    + simpl in Hc. rewrite Hc. eauto.
Qed.

Lemma quote_free_split (t : pystr) :
  quote_free t = true ->
  forallb is_plain t = true \/
  exists pre c rest,
    t = pre ++ c :: rest /\ forallb is_plain pre = true /\
    is_delim c = true /\ quote_free rest = true.
Proof.
  intros H. destruct (first_special t) as [Hp | (pre & c & rest & -> & Hpre & Hc)];
    [auto|].
  right. exists pre, c, rest. unfold quote_free in *.
  rewrite forallb_app in H. apply andb_true_iff in H as [_ H].
  simpl in H. apply andb_true_iff in H as [Hcd H].
  rewrite Hc in Hcd. simpl in Hcd. auto.
Qed.

Lemma loop_quote_free (k : nat) :
  forall rest s0 st fuel,
    (List.length rest <= k)%nat -> quote_free rest = true ->
    i st = len s0 -> (List.length rest < fuel)%nat ->
    match depth_after (indent st) rest with
    | Some d =>
        exists st', loop fuel (s0 ++ rest) st = Some (Ok st') /\ indent st' = d
    | None =>
        exists msg, loop fuel (s0 ++ rest) st = Some (Raise (SyntaxError msg))
    end.
Proof.
  induction k as [|k IH]; intros rest s0 st fuel Hk Hqf Hi Hfuel;
    (destruct fuel as [|fuel]; [lia|]).
  - destruct rest; [|simpl in Hk; lia].
    simpl. rewrite !app_nil_r. rewrite Hi. rewrite Z.ltb_irrefl. eauto.
  - destruct rest as [|c0 rest0] eqn:Erest.
    { simpl. rewrite !app_nil_r. rewrite Hi. rewrite Z.ltb_irrefl. eauto. }
    rewrite <- Erest in *.
    assert (Hpos : (0 < List.length rest)%nat) by (rewrite Erest; simpl; lia).
    clear Erest c0 rest0.
    assert (Hlt : (i st <? len (s0 ++ rest)) = true).
    { apply Z.ltb_lt. rewrite Hi, len_app. unfold len. lia. }
    cbn [loop]. rewrite Hlt.
    destruct (quote_free_split rest Hqf)
      as [Hpl | (pre & c & rest' & E & Hpre & Hc & Hqf')].
    + rewrite (depth_after_plain rest Hpl).
      unfold body. rewrite Hi, PAT_match_app, (PAT_len_plain rest Hpl). simpl.
      eexists. split; reflexivity.
    + subst rest.
      destruct (match_delim s0 pre c rest' Hpre Hc) as (Hm & Hidx & _).
      cbv zeta in Hm, Hidx. rewrite <- Hi in Hm at 1.
      pose proof (body_delim_depth _ st _ c Hm Hidx Hc) as Hbody.
      rewrite (depth_after_special pre c rest' Hpre).
      destruct (depth_after (indent st) [c]) as [d|].
      * destruct Hbody as (b' & l & ->).
        rewrite length_app in Hk, Hfuel. simpl in Hk, Hfuel.
        assert (Hs0 : len (s0 ++ pre ++ [c]) = len s0 + len pre + 1)
          by (rewrite !len_app; change (len [c]) with 1; lia).
        pose proof (IH rest' (s0 ++ pre ++ [c])
                      (mkState b' (len s0 + len pre + 1) d l) fuel
                      ltac:(lia) Hqf' (eq_sym Hs0) ltac:(lia)) as Hrec.
        rewrite <- !app_assoc in Hrec. exact Hrec.
      * destruct Hbody as (msg & ->). eauto.
Qed.

Lemma depth_after_count (t : pystr) :
  forall d d',
    depth_after d t = Some d' ->
    d' = d + Z.of_nat (count_occ N.eq_dec t LBRACE)
           - Z.of_nat (count_occ N.eq_dec t RBRACE).
Proof.
  induction t as [|c t' IH]; intros d d' H; simpl in H.
  - injection H as <-. simpl. lia.
  - simpl.
    destruct (N.eqb_spec c LBRACE) as [->|Hl].
    + apply IH in H. simpl. destruct (N.eq_dec LBRACE RBRACE); [discriminate|].
      destruct (N.eq_dec LBRACE LBRACE); [|congruence]. lia.
    + destruct (N.eq_dec c LBRACE); [congruence|].
      destruct (N.eqb_spec c RBRACE) as [->|Hr].
      * destruct (d - 1 <? 0); [discriminate|]. apply IH in H.
        destruct (N.eq_dec RBRACE RBRACE); [|congruence]. lia.
      * destruct (N.eq_dec c RBRACE); [congruence|]. apply IH, H.
Qed.

(** X6.  On a script without quotes the pass follows the braces: it
    raises the [SyntaxError] exactly when some closing brace has no
    opening brace before it to close, and otherwise it returns with the
    depth equal to the number of opening braces minus the number of
    closing braces.  A block that is left open is no error. *)
Theorem braces_and_depth :
  forall s,
    quote_free s = true ->
    ((exists x, make_script s = Some (Raise x)) <-> depth_after 0 s = None)
    /\ (forall d,
          depth_after 0 s = Some d ->
          exists st,
            run s = Some (Ok st) /\ make_script s = Some (Ok (lines st)) /\
            indent st = d /\
            d = Z.of_nat (count_occ N.eq_dec s LBRACE)
                - Z.of_nat (count_occ N.eq_dec s RBRACE)).
Proof.
  intros s H.
  pose proof (loop_quote_free (List.length s) s [] init (S (List.length s))
                (le_n _) H eq_refl (Nat.lt_succ_diag_r _)) as Hl.
  simpl app in Hl. change (indent init) with 0 in Hl.
  change (loop (S (List.length s)) s init) with (run s) in Hl.
  split.
  - split.
    + intros [x Hx]. apply make_script_raise in Hx.
      destruct (depth_after 0 s) as [d|]; [|reflexivity].
      destruct Hl as (st' & Hr & _). congruence.
    + intros E. rewrite E in Hl. destruct Hl as (msg & Hr).
      exists (SyntaxError msg). apply make_script_raise, Hr.
  - intros d E. rewrite E in Hl. destruct Hl as (st' & Hr & Hd).
    exists st'. split; [assumption|]. split; [|split; [assumption|]].
    + unfold make_script. rewrite Hr. reflexivity.
    + apply depth_after_count in E. lia.
Qed.

Lemma braces_and_depth_witness :
  (exists x, make_script (str "a{b}}c{") = Some (Raise x))
  /\ exists st,
       run (str "if a{b;while c{d}") = Some (Ok st) /\
       make_script (str "if a{b;while c{d}") = Some (Ok (lines st)) /\
       indent st = 1 /\
       1 = Z.of_nat (count_occ N.eq_dec (str "if a{b;while c{d}") LBRACE)
           - Z.of_nat (count_occ N.eq_dec (str "if a{b;while c{d}") RBRACE).
Proof.
  split.
  - apply (braces_and_depth (str "a{b}}c{")); reflexivity.
  - apply (braces_and_depth (str "if a{b;while c{d}")); reflexivity.
Defined.

(** ** A statement with a quoted literal *)

Lemma PAT_len_literal (q : char) (pre w post : pystr) :
  q = DQUOTE \/ q = SQUOTE ->
  forallb is_plain pre = true -> literal_text q w = true ->
  PAT_len (pre ++ q :: w ++ q :: post)
  = Some (List.length pre + List.length w + 2)%nat.
Proof.
  intros Hq Hpre Hw. destruct (quote_not_plain q Hq) as [Hp Hd].
  rewrite PAT_len_special, Hd by assumption.
  rewrite quoted_literal_text by assumption.
  assert (Hbs : (BACKSLASH =? q)%N = false) by (destruct Hq as [->| ->]; reflexivity).
  cbn [quoted]. rewrite Hbs, N.eqb_refl. simpl. f_equal. lia.
Qed.

(** X7.  A statement made of plain text and one quoted literal, whose
    text holds neither its quote nor a backslash, is not cut at the
    delimiters inside the literal: the pass returns it, stripped, as one
    line.  This holds when plain text follows the literal; when the
    literal ends the script, the pass returns no line at all. *)
Theorem literal_statement :
  forall q pre w post,
    q = DQUOTE \/ q = SQUOTE ->
    forallb is_plain pre = true -> literal_text q w = true ->
    forallb is_plain post = true ->
    make_script (pre ++ q :: w ++ q :: post)
    = Some (Ok (match post with
                | [] => []
                | _ :: _ => emitted 0 (pre ++ q :: w ++ q :: post)
                end)).
Proof.
  intros q pre w post Hq Hpre Hw Hpost.
  set (s := pre ++ q :: w ++ q :: post).
  set (e := len pre + len w + 2).
  destruct (quote_not_plain q Hq) as [Hp Hd].
  assert (Hs : s = (pre ++ q :: w ++ [q]) ++ post).
  { unfold s. rewrite <- !app_assoc. simpl. rewrite <- app_assoc. reflexivity. }
  assert (He : len (pre ++ q :: w ++ [q]) = e).
  { unfold e, len. rewrite length_app. simpl. rewrite length_app. simpl. lia. }
  assert (Hm : PAT_match s 0 = Some e).
  { rewrite PAT_match_start. unfold s.
    rewrite PAT_len_literal by assumption. simpl. f_equal. unfold e, len. lia. }
  assert (Hidx : index s (e - 1) = Ok q).
  { unfold s, e.
    replace (len pre + len w + 2 - 1) with (len [] + len (pre ++ q :: w))
      by (rewrite len_app; unfold len; simpl; lia).
    replace (pre ++ q :: w ++ q :: post) with ([] ++ (pre ++ q :: w) ++ q :: post)
      by (simpl; rewrite <- app_assoc; reflexivity).
    apply index_app_mid. }
  assert (Hb : body s init = Continue (mkState 0 e 0 [])).
  { unfold body. change (i init) with 0.
    rewrite Hm, (not_trigger s 0 e q Hm Hidx)
      by (destruct Hq as [->| ->]; discriminate).
    rewrite Hidx. unfold is_delim in Hd.
    apply orb_false_iff in Hd as [Hd Hsemi].
    apply orb_false_iff in Hd as [Hl Hr]. rewrite Hl, Hr, Hsemi. reflexivity. }
  assert (Hlen : 0 < len s).
  { unfold s. rewrite len_app. unfold len. simpl. lia. }
  assert (Hreach : reachable s (mkState 0 e 0 [])).
  { apply reach_step with init; [apply reach_init | exact Hlen | exact Hb]. }
  apply make_script_run.
  destruct post as [|c post'] eqn:Epost.
  - exists (mkState 0 e 0 []). split; [|reflexivity].
    apply run_stops. eexists. split; [exact Hreach|].
    left. split; [|reflexivity]. simpl. rewrite Hs, len_app, He.
    change (len []) with 0. lia.
  - rewrite <- Epost in *.
    eexists. split; [apply (run_no_match s _ Hreach)|].
    + simpl. rewrite Hs, len_app, He. unfold len. rewrite Epost. simpl. lia.
    + simpl. rewrite <- He, Hs, PAT_match_app, (PAT_len_plain post Hpost).
      reflexivity.
    + simpl. change (slice_from s 0) with (slice_from ([] ++ s) (len [])).
      rewrite slice_from_app. reflexivity.
Qed.

Lemma literal_statement_witness :
  make_script (str "print('a;b{c}d')") = Some (Ok [str "print('a;b{c}d')"])
  /\ make_script (str "x = 'a;b'") = Some (Ok []).
Proof.
  split.
  - apply (literal_statement SQUOTE (str "print(") (str "a;b{c}d") (str ")"));
      auto.
  - apply (literal_statement SQUOTE (str "x = ") (str "a;b") []); auto.
Defined.

(** ** The command line *)

Lemma option_step_lines (d : Z) (ls : list pystr) (kv : pystr * pystr) :
  option_step (d, ls) kv
  = (d + (if debug_option kv then 1 else 0), ls ++ option_lines kv).
Proof.
  destruct kv as [k v]. unfold option_step, option_lines, debug_option. simpl.
  destruct (pystr_eqb k (str "-d")) eqn:Hd.
  - apply pystr_eqb_eq in Hd. subst k. simpl. rewrite app_nil_r. reflexivity.
  - destruct (pystr_eqb k (str "-i")); [f_equal; lia|].
    destruct (pystr_eqb k (str "-f")); [f_equal; lia|].
    rewrite app_nil_r. f_equal. lia.
Qed.

Lemma fold_option_step (opts : list (pystr * pystr)) :
  forall d ls,
    List.fold_left option_step opts (d, ls)
    = (d + Z.of_nat (List.length (List.filter debug_option opts)),
       ls ++ flat_map option_lines opts).
Proof.
  induction opts as [|kv opts IH]; intros d ls.
  - simpl. rewrite app_nil_r. f_equal. lia.
  - cbn [List.fold_left flat_map List.filter].
    rewrite option_step_lines, IH, <- app_assoc.
    destruct (debug_option kv); simpl List.length; f_equal; lia.
Qed.

Lemma fold_option_step_known (opts : list (pystr * pystr)) :
  forall acc,
    List.fold_left option_step (List.filter known_option opts) acc
    = List.fold_left option_step opts acc.
Proof.
  induction opts as [|kv opts IH]; intros [d ls]; [reflexivity|].
  cbn [List.fold_left List.filter].
  destruct (known_option kv) eqn:Hk; [apply IH|].
  rewrite IH. f_equal. destruct kv as [k v].
  unfold known_option in Hk. simpl in Hk.
  apply orb_false_iff in Hk as [Hk Hf]. apply orb_false_iff in Hk as [Hd Hi].
  unfold option_step. rewrite Hd, Hi, Hf. reflexivity.
Qed.

(** X8.  [main] acts on the options [-d], [-i] and [-f] only: any other
    option that the parser returns is skipped and changes nothing.  This
    holds for [-F], which the parser accepts and the usage text
    advertises: it has no effect on what [main] does. *)
Theorem unknown_options_ignored :
  (forall getopt1 getopt2 evaluate argv opts args,
     getopt1 (List.tl argv) = Some (opts, args) ->
     getopt2 (List.tl argv) = Some (List.filter known_option opts, args) ->
     main getopt1 evaluate argv = main getopt2 evaluate argv)
  /\ (forall getopt1 getopt2 evaluate argv opts1 delim opts2 args,
        getopt1 (List.tl argv) = Some (opts1 ++ (str "-F", delim) :: opts2, args) ->
        getopt2 (List.tl argv) = Some (opts1 ++ opts2, args) ->
        main getopt1 evaluate argv = main getopt2 evaluate argv).
Proof.
  assert (H : forall getopt1 getopt2 evaluate argv opts opts' args,
            getopt1 (List.tl argv) = Some (opts, args) ->
            getopt2 (List.tl argv) = Some (opts', args) ->
            List.filter known_option opts = List.filter known_option opts' ->
            main getopt1 evaluate argv = main getopt2 evaluate argv).
  { intros getopt1 getopt2 evaluate argv opts opts' args H1 H2 E. unfold main.
    rewrite H1, H2.
    rewrite <- (fold_option_step_known opts), <- (fold_option_step_known opts'), E.
    reflexivity. }
  split.
  - intros getopt1 getopt2 evaluate argv opts args H1 H2.
    apply (H _ _ _ _ _ _ _ H1 H2).
    clear. induction opts as [|kv opts IH]; [reflexivity|].
    cbn [List.filter]. destruct (known_option kv) eqn:Hk; [|exact IH].
    cbn [List.filter]. rewrite Hk, <- IH. reflexivity.
  - intros getopt1 getopt2 evaluate argv opts1 delim opts2 args H1 H2.
    apply (H _ _ _ _ _ _ _ H1 H2).
    rewrite !filter_app. reflexivity.
Qed.

Lemma unknown_options_ignored_witness :
  main (fun _ => Some ([(str "-F", str ","); (str "-i", str "sys")], [str "A;B"]))
       sample_evaluate
       [str "pyone"; str "-F"; str ","; str "-i"; str "sys"; str "A;B"]
  = main (fun _ => Some ([(str "-i", str "sys")], [str "A;B"]))
         sample_evaluate
         [str "pyone"; str "-F"; str ","; str "-i"; str "sys"; str "A;B"].
Proof.
  destruct unknown_options_ignored as [_ H].
  apply (H _ _ _ _ [] (str ",") [(str "-i", str "sys")] [str "A;B"]); reflexivity.
Defined.

Lemma filter_length_zero {A : Type} (f : A -> bool) (l : list A) :
  (Z.of_nat (List.length (List.filter f l)) =? 0) = negb (existsb f l).
Proof.
  induction l as [|a l IH]; [reflexivity|].
  simpl. destruct (f a); [reflexivity | exact IH].
Qed.

(** [main] once the options are parsed and the script is expanded. *)
Lemma main_expanded
  (getopt : list pystr -> option (list (pystr * pystr) * list pystr))
  (evaluate : mode -> pystr -> environment -> list pystr -> behaviour)
  (argv : list pystr) (opts : list (pystr * pystr))
  (script : pystr) (rest ls : list pystr) :
  getopt (List.tl argv) = Some (opts, script :: rest) ->
  make_script script = Some (Ok ls) ->
  main getopt evaluate argv
  = let all := flat_map option_lines opts ++ ls in
    let args := script :: rest in
    if existsb debug_option opts then Some (Ok (Exit (join [NEWLINE] all) 0))
    else if (List.length all =? 1)%nat
         then finish Single
                (evaluate Single (join [NEWLINE] all) (FrameOfMain argv) args)
         else finish Exec
                (evaluate Exec (join [NEWLINE] all) (SavedNames args) args).
Proof.
  intros Hg Hm. unfold main. rewrite Hg, fold_option_step, Hm.
  simpl Z.add. rewrite filter_length_zero, negb_involutive. reflexivity.
Qed.



Lemma option_lines_import (kv : pystr * pystr) :
  import_option kv = true -> (1 <= List.length (option_lines kv))%nat.
Proof.
  unfold import_option, option_lines. destruct kv as [k v]. simpl.
  destruct (pystr_eqb k (str "-i")); [simpl; lia|].
  simpl. intros ->. rewrite length_map.
  destruct (split_on_cons COMMA v) as (p & ps & ->). simpl. lia.
Qed.

Lemma flat_map_import (opts : list (pystr * pystr)) :
  existsb import_option opts = true ->
  (1 <= List.length (flat_map option_lines opts))%nat.
Proof.
  induction opts as [|kv opts IH]; [discriminate|].
  simpl. rewrite length_app. intros H. apply orb_true_iff in H as [H|H].
  - apply option_lines_import in H. lia.
  - specialize (IH H). lia.
Qed.

Lemma flat_map_no_import (opts : list (pystr * pystr)) :
  existsb import_option opts = false -> flat_map option_lines opts = [].
Proof.
  induction opts as [|kv opts IH]; [reflexivity|].
  simpl. intros H. apply orb_false_iff in H as [Hkv H]. rewrite (IH H).
  unfold import_option in Hkv. apply orb_false_iff in Hkv as [Hi Hf].
  unfold option_lines. rewrite Hi, Hf. reflexivity.
Qed.

(** X10.  Without [-d], [main] sets [sys.argv] to the remaining
    arguments and evaluates the script: in mode [single] and in its own
    frame, where [argv] is still the whole argument list of [main], only
    when the import lines and the lines of the script are one line in
    all; otherwise in mode [exec] with the saved names, where [argv] is
    bound to the remaining arguments.  [main] then returns 0, printing
    the value that [eval] returns in mode [single] unless it is [None];
    it raises what the evaluation raises and does not return when the
    evaluation does not.  Hence a one-line script is evaluated in mode
    [single] when no [-i] or [-f] is given, and with any [-i] or [-f] a
    script that expands to at least one line is always evaluated in mode
    [exec]. *)
Theorem evaluation_mode :
  forall getopt evaluate argv opts script rest ls,
    getopt (List.tl argv) = Some (opts, script :: rest) ->
    existsb debug_option opts = false ->
    make_script script = Some (Ok ls) ->
    let all := flat_map option_lines opts ++ ls in
    let args := script :: rest in
    let single := evaluate Single (join [NEWLINE] all) (FrameOfMain argv) args in
    let exec := evaluate Exec (join [NEWLINE] all) (SavedNames args) args in
    (List.length all = 1%nat ->
     main getopt evaluate argv
     = match single with
       | Returns r => Some (Ok (Evaluated r 0))
       | Throws e => Some (Raise e)
       | Loops => Some (Ok Unfinished)
       end)
    /\ (List.length all <> 1%nat ->
        main getopt evaluate argv
        = match exec with
          | Returns _ => Some (Ok (Evaluated None 0))
          | Throws e => Some (Raise e)
          | Loops => Some (Ok Unfinished)
          end)
    /\ (existsb import_option opts = false ->
        forall l, ls = [l] ->
        main getopt evaluate argv
        = finish Single (evaluate Single l (FrameOfMain argv) args))
    /\ (existsb import_option opts = true -> ls <> [] ->
        main getopt evaluate argv = finish Exec exec).
Proof.
  intros getopt evaluate argv opts script rest ls Hg Hd Hm all args single exec.
  pose proof (main_expanded getopt evaluate argv opts script rest ls Hg Hm) as H.
  cbv zeta in H. rewrite Hd in H. fold all args in H.
  assert (H1 : List.length all = 1%nat ->
               main getopt evaluate argv = finish Single single).
  { intros E. rewrite H, E. reflexivity. }
  assert (H2 : List.length all <> 1%nat ->
               main getopt evaluate argv = finish Exec exec).
  { intros E. rewrite H. apply Nat.eqb_neq in E. rewrite E. reflexivity. }
  split; [|split; [|split]].
  - intros E. rewrite (H1 E). unfold finish. destruct single; reflexivity.
  - intros E. rewrite (H2 E). unfold finish. destruct exec; reflexivity.
  - intros Hi l ->. unfold single, all in *.
    rewrite (flat_map_no_import opts Hi) in *. apply (H1 eq_refl).
  - intros Hi Hls. apply H2. unfold all. rewrite length_app.
    apply flat_map_import in Hi. destruct ls; [congruence|]. simpl. lia.
Qed.

Lemma evaluation_mode_witness :
  main (fun _ => Some ([], [str "2+3"; str "x"])) sample_evaluate
       [str "pyone"; str "2+3"; str "x"]
  = finish Single
      (sample_evaluate Single (str "2+3")
         (FrameOfMain [str "pyone"; str "2+3"; str "x"]) [str "2+3"; str "x"])
  /\ main (fun _ => Some ([(str "-i", str "math")], [str "1/0"])) sample_evaluate
          [str "pyone"; str "-i"; str "math"; str "1/0"]
     = finish Exec
         (sample_evaluate Exec (join [NEWLINE] [str "import math"; str "1/0"])
            (SavedNames [str "1/0"]) [str "1/0"])
  /\ main (fun _ => Some ([], [str "1/0"])) sample_evaluate [str "pyone"; str "1/0"]
     = Some (Raise OtherError)
  /\ main (fun _ => Some ([], [str "while 1{pass}"])) sample_evaluate
          [str "pyone"; str "while 1{pass}"]
     = Some (Ok Unfinished).
Proof.
  split; [|split; [|split]].
  - destruct (evaluation_mode (fun _ => Some ([], [str "2+3"; str "x"]))
                sample_evaluate [str "pyone"; str "2+3"; str "x"]
                [] (str "2+3") [str "x"] [str "2+3"] eq_refl eq_refl eq_refl)
      as (_ & _ & H & _).
    apply (H eq_refl (str "2+3") eq_refl).
  - destruct (evaluation_mode (fun _ => Some ([(str "-i", str "math")], [str "1/0"]))
                sample_evaluate [str "pyone"; str "-i"; str "math"; str "1/0"]
                [(str "-i", str "math")] (str "1/0") [] [str "1/0"]
                eq_refl eq_refl eq_refl)
      as (_ & _ & _ & H).
    apply (H eq_refl). discriminate.
  - destruct (evaluation_mode (fun _ => Some ([], [str "1/0"]))
                sample_evaluate [str "pyone"; str "1/0"]
                [] (str "1/0") [] [str "1/0"] eq_refl eq_refl eq_refl)
      as (H & _).
    apply (H eq_refl).
  - destruct (evaluation_mode (fun _ => Some ([], [str "while 1{pass}"]))
                sample_evaluate [str "pyone"; str "while 1{pass}"]
                [] (str "while 1{pass}") [] [str "while 1:"; str "    pass"]
                eq_refl eq_refl eq_refl)
      as (_ & H & _).
    apply H. discriminate.
Defined.



